(** * cge_modeling.production_functions: equation generators

    A shallow embedding of [cge_modeling/production_functions.py] and the
    properties of its public operations [unpack_string_inputs], [CES],
    [dixit_stiglitz] and [leontief].

    The generators take arguments of type [Union[str, list[str]]].  Python
    lists are mutable objects that callers keep a reference to, and
    [_add_second_alpha] appends to one in place, so lists live in a store and
    every operation is a computation in a state-and-exception monad over that
    store.  A Python [str] is a [string]; one [ascii] stands for the character
    with that code point. *)

From Stdlib Require Import Ascii.
From stdpp Require Import gmap strings list fin_maps pretty sorting.

Open Scope string_scope.
Open Scope list_scope.

(** ** Values, store and exceptions *)

Definition addr := nat.

(** [Union[str, list[str]]]: a string, or a reference to a list object. *)
Inductive value :=
  | VStr (s : string)
  | VList (a : addr).

(** The list objects that exist, by address; [list[str]] holds strings. *)
Abbreviation store := (list (list string)).

(** The exceptions the module can raise, each with its argument.  [Stuck] is
    not a Python exception: it marks a reference to an address at which the
    store has no object, which no well-formed call reaches. *)
Inductive exn :=
  | ValueError (msg : string)
  | KeyError (arg : string)
  | TypeError (msg : string)
  | IndexError (msg : string)
  | AttributeError (msg : string)
  | Stuck.

Inductive result (A : Type) :=
  | Ok (x : A)
  | Raise (e : exn).
Arguments Ok {A} x.
Arguments Raise {A} e.

Definition M (A : Type) : Type := store → result A * store.

#[global] Instance M_ret : MRet M := λ A x h, (Ok x, h).
#[global] Instance M_bind : MBind M := λ A B f m h,
  match m h with
  | (Ok x, h') => f x h'
  | (Raise e, h') => (Raise e, h')
  end.

Definition raise {A} (e : exn) : M A := λ h, (Raise e, h).

(** [x] where [x] is a list reference: the items of the object. *)
Definition deref (a : addr) : M (list string) := λ h,
  match h !! a with
  | Some l => (Ok l, h)
  | None => (Raise Stuck, h)
  end.

(** A list display [[...]] or comprehension: a new object. *)
Definition alloc (l : list string) : M value := λ h,
  (Ok (VList (length h)), h ++ [l]).

(** [x.append(s)]: the object at [a] is updated in place. *)
Definition append (a : addr) (s : string) : M unit := λ h,
  match h !! a with
  | Some l => (Ok (), <[a := l ++ [s]]> h)
  | None => (Raise Stuck, h)
  end.

(** [for x in l: body]. *)
Fixpoint for_each {A} (l : list A) (body : A → M unit) : M unit :=
  match l with
  | [] => mret ()
  | x :: l' => body x ;; for_each l' body
  end.

(** ** Built-ins *)

Definition isinstance_list (x : value) : bool :=
  match x with VList _ => true | VStr _ => false end.

Definition isinstance_str (x : value) : bool :=
  match x with VStr _ => true | VList _ => false end.

(** [len(x)]: the number of characters of a string, of items of a list. *)
Definition len (x : value) : M nat :=
  match x with
  | VStr s => mret (String.length s)
  | VList a => l ← deref a; mret (length l)
  end.

(** The characters of a string, each as a string of length one. *)
Fixpoint chars (s : string) : list string :=
  match s with
  | EmptyString => []
  | String c s' => String c EmptyString :: chars s'
  end.

(** [iter(x)], run to the end: what a [for] loop or [zip] sees. *)
Definition iter (x : value) : M (list string) :=
  match x with
  | VStr s => mret (chars s)
  | VList a => deref a
  end.

(** [sep.join(items)]. *)
Fixpoint join (sep : string) (items : list string) : string :=
  match items with
  | [] => EmptyString
  | [s] => s
  | s :: rest => s +:+ sep +:+ join sep rest
  end.

(** [str(n)] for an [int]. *)
Definition str_int (n : Z) : string := pretty n.

(** *** [repr] of a string and [str] of a list of strings *)

Definition quote1 : ascii := ascii_of_nat 39.
Definition quote2 : ascii := ascii_of_nat 34.
Definition backslash : ascii := ascii_of_nat 92.

Definition hex_digit (n : nat) : ascii :=
  if decide (n < 10)%nat then ascii_of_nat (48 + n) else ascii_of_nat (87 + n).

Fixpoint contains_char (c : ascii) (s : string) : bool :=
  match s with
  | EmptyString => false
  | String d s' => Ascii.eqb c d || contains_char c s'
  end.

(** CPython's [unicode_repr] for one character inside the quotes [q]. *)
Definition repr_char (q c : ascii) : string :=
  let n := nat_of_ascii c in
  if Ascii.eqb c q || Ascii.eqb c backslash then String backslash (String c EmptyString)
  else if decide (n = 9) then String backslash "t"
  else if decide (n = 10) then String backslash "n"
  else if decide (n = 13) then String backslash "r"
  else if decide (n < 32 ∨ n = 127 ∨ (128 ≤ n ∧ n ≤ 160) ∨ n = 173)%nat
       then String backslash
              (String "x" (String (hex_digit (n / 16)) (String (hex_digit (n mod 16)) EmptyString)))
  else String c EmptyString.

Fixpoint repr_body (q : ascii) (s : string) : string :=
  match s with
  | EmptyString => EmptyString
  | String c s' => repr_char q c +:+ repr_body q s'
  end.

(** [repr(s)]: single quotes, unless [s] has a single quote and no double
    quote. *)
Definition repr_str (s : string) : string :=
  let q := if contains_char quote1 s && negb (contains_char quote2 s)
           then quote2 else quote1 in
  String q (repr_body q s +:+ String q EmptyString).

Definition repr_list (l : list string) : string :=
  "[" +:+ join ", " (repr_str <$> l) +:+ "]".

(** [str(x)], which is what an f-string field [{x}] and [Template] render. *)
Definition str (x : value) : M string :=
  match x with
  | VStr s => mret s
  | VList a => l ← deref a; mret (repr_list l)
  end.

(** [str(x)] for an [Optional] argument. *)
Definition str_opt (x : option value) : M string :=
  match x with
  | None => mret "None"
  | Some v => str v
  end.

(** [x[i]] on a string or a list. *)
Definition getitem (x : value) (i : nat) : M string :=
  match x with
  | VStr s =>
      match chars s !! i with
      | Some c => mret c
      | None => raise (IndexError "string index out of range")
      end
  | VList a =>
      l ← deref a;
      match l !! i with
      | Some s => mret s
      | None => raise (IndexError "list index out of range")
      end
  end.

(** [x.append(s)]. *)
Definition append_to (x : value) (s : string) : M unit :=
  match x with
  | VList a => append a s
  | VStr _ => raise (AttributeError "'str' object has no attribute 'append'")
  end.

(** [d[k]] on a dict: [KeyError(k)] when the key is absent. *)
Definition dict_getitem {V} (d : gmap string V) (k : string) : M V :=
  match d !! k with
  | Some v => mret v
  | None => raise (KeyError k)
  end.

(** [sep.join(items)] where an item may fail to be a string. *)
Fixpoint join_items (i : nat) (items : list value) : M (list string) :=
  match items with
  | [] => mret []
  | VStr s :: rest => ss ← join_items (S i) rest; mret (s :: ss)
  | VList _ :: _ =>
      raise (TypeError ("sequence item " +:+ pretty i
                        +:+ ": expected str instance, list found"))
  end.

Definition str_join (sep : string) (items : list value) : M string :=
  ss ← join_items 0 items; mret (join sep ss).

(** [enumerate(l)]. *)
Definition enumerate {A} (l : list A) : list (nat * A) := zip (seq 0 (length l)) l.

(** [itertools.combinations(l, 2)]: the pairs of positions [i < j], in
    lexicographic order of the positions. *)
Fixpoint combinations2 {A} (l : list A) : list (A * A) :=
  match l with
  | [] => []
  | x :: l' => (pair x <$> l') ++ combinations2 l'
  end.

(** [itertools.product] of the pools, as its documentation defines it:
    [result = [[]]], then for each pool
    [result = [x + [y] for x in result for y in pool]]. *)
Definition product {A} (pools : list (list A)) : list (list A) :=
  foldl (λ result pool, x ← result; y ← pool; [x ++ [y]]) [[]] pools.

(** ** [string.Template.safe_substitute]

    The template is scanned once from left to right for the pattern
    [\$(?:(\$)|(id)|{(id)}|())] with [id = [_a-z][_a-z0-9]*], case
    insensitive: [$$] gives [$], [$id] and [${id}] give the keyword's value
    when the keyword is given and stay as they are otherwise, any other [$]
    stays.  Substituted values are not scanned again. *)

Definition is_id_start (c : ascii) : bool :=
  let n := nat_of_ascii c in
  (n =? 95)%nat || ((97 <=? n)%nat && (n <=? 122)%nat)
  || ((65 <=? n)%nat && (n <=? 90)%nat).

Definition is_id_char (c : ascii) : bool :=
  let n := nat_of_ascii c in
  is_id_start c || ((48 <=? n)%nat && (n <=? 57)%nat).

Definition is_dollar (c : ascii) : bool := Ascii.eqb c "$".
Definition is_lbrace (c : ascii) : bool := Ascii.eqb c "{".
Definition is_rbrace (c : ascii) : bool := Ascii.eqb c "}".

(** Keyword arguments, already converted with [str]. *)
Definition mapping := list (string * string).

Fixpoint kw_lookup (m : mapping) (id : string) : option string :=
  match m with
  | [] => None
  | (k, v) :: m' => if String.eqb k id then Some v else kw_lookup m' id
  end.

Definition subst_named (m : mapping) (id : string) : string :=
  match kw_lookup m id with
  | Some v => v
  | None => "$" +:+ id
  end.

Definition subst_braced (m : mapping) (id : string) : string :=
  match kw_lookup m id with
  | Some v => v
  | None => "${" +:+ id +:+ "}"
  end.

Inductive scan_state :=
  | Text
  | Dollar
  | Named (id : string)
  | Braced (id : string).

Fixpoint scan (m : mapping) (st : scan_state) (s : string) : string :=
  match s with
  | EmptyString =>
      match st with
      | Text => EmptyString
      | Dollar => "$"
      | Named id => subst_named m id
      | Braced id => "${" +:+ id
      end
  | String c s' =>
      match st with
      | Text =>
          if is_dollar c then scan m Dollar s' else String c (scan m Text s')
      | Dollar =>
          if is_dollar c then String "$" (scan m Text s')
          else if is_id_start c then scan m (Named (String c EmptyString)) s'
          else if is_lbrace c then scan m (Braced EmptyString) s'
          else String "$" (String c (scan m Text s'))
      | Named id =>
          if is_id_char c then scan m (Named (id +:+ String c EmptyString)) s'
          else subst_named m id
               +:+ (if is_dollar c then scan m Dollar s'
                    else String c (scan m Text s'))
      | Braced id =>
          if (if String.eqb id EmptyString then is_id_start c else is_id_char c)
          then scan m (Braced (id +:+ String c EmptyString)) s'
          else if is_rbrace c && negb (String.eqb id EmptyString)
          then subst_braced m id +:+ scan m Text s'
          else "${" +:+ id
               +:+ (if is_dollar c then scan m Dollar s'
                    else String c (scan m Text s'))
      end
  end.

Definition safe_substitute (template : string) (m : mapping) : string :=
  scan m Text template.

(** ** The module's helpers *)

(** Modelled from the spec: [at_least_list] of
    [cge_modeling.tools.pytensor_tools], which is imported and not defined in
    this module.  The spec has it normalise an argument "to at-least-a-list"
    and return list-valued inputs "unchanged": a list is returned as it is
    (the same object), anything else is wrapped in a new one-element list. *)
Definition at_least_list (x : value) : M value :=
  match x with
  | VList a => mret (VList a)
  | VStr s => alloc [s]
  end.

Definition _check_pairwise_lengths_match (names : list string)
    (args : list value) : M unit :=
  list_args ← mapM at_least_list args;
  let arg_pairs := combinations2 list_args in
  let name_pairs := combinations2 names in
  for_each (zip name_pairs arg_pairs) (λ '(name_pair, arg_pair),
    n0 ← len arg_pair.1;
    n1 ← len arg_pair.2;
    if decide (n0 ≠ n1)
    then raise (ValueError ("Lengths of " +:+ name_pair.1 +:+ " and "
                            +:+ name_pair.2 +:+ " do not match"))
    else mret ()).

Definition unwrap_singleton_list (x : value) : M value :=
  match x with
  | VList a =>
      n ← len x;
      if decide (n = 1) then s ← getitem x 0; mret (VStr s) else mret x
  | VStr _ => mret x
  end.

(** [unwrap_singleton_list] on an [Optional] argument: [None] is no list. *)
Definition unwrap_singleton_opt (x : option value) : M (option value) :=
  match x with
  | None => mret None
  | Some v => v' ← unwrap_singleton_list v; mret (Some v')
  end.

(** ** [unpack_string_inputs] *)

Definition unpack_string_inputs (inputs : list value) (dims : option value)
    (coords : option (gmap string (list string))) : M (list value) :=
  inputs ← mapM unwrap_singleton_list inputs;
  if forallb isinstance_list inputs then mapM at_least_list inputs
  else
    match coords, dims with
    | Some coords, Some dims =>
        keys ← iter dims;
        if negb (forallb (λ key, bool_decide (key ∈ dom coords)) keys)
        then d ← str dims;
             raise (KeyError ("Dimensions " +:+ d +:+ " not found in coords"))
        else
          keys ← iter dims;
          labels ← mapM (dict_getitem coords) keys;
          let label_prod := product labels in
          outputs ← mapM (λ _, alloc []) inputs;
          for_each label_prod (λ labels,
            let label_list := labels in
            for_each (enumerate inputs) (λ '(i, input),
              name ← str_join "_" (input :: (VStr <$> label_list));
              match outputs !! i with
              | Some out => append_to out name
              | None => raise (IndexError "list index out of range")
              end)) ;;
          mret outputs
    | _, _ => mapM at_least_list inputs
    end.

(** ** [_add_second_alpha] *)

Definition _add_second_alpha (alpha factors : value) : M value :=
  no_second ← (if negb (isinstance_list factors) then mret true
               else n ← len factors; mret (bool_decide (n ≠ 2)));
  if (no_second : bool) then at_least_list alpha
  else
    alpha ← at_least_list alpha;
    nf ← len factors;
    na ← (if decide (nf = 2) then len alpha else mret 0);
    if bool_decide (nf = 2) && bool_decide (na = 1)
    then a0 ← getitem alpha 0;
         append_to alpha ("1 - " +:+ a0) ;;
         mret alpha
    else mret alpha.

(** ** [CES] *)

Definition CES (factors factor_prices : value) (output output_price TFP : string)
    (factor_shares : value) (epsilon : string) : M (list string) :=
  factor_shares ← _add_second_alpha factor_shares factors;
  _check_pairwise_lengths_match
    ["factors"; "factor_prices"; "factor_shares"]
    [factors; factor_prices; factor_shares] ;;
  let production_inner_template :=
    "($factor_shares) * $factor ** (($epsilon - 1) / $epsilon)" in
  fs ← iter factors;
  ss ← iter factor_shares;
  let production_inner :=
    (λ '(factor, factor_share),
       safe_substitute production_inner_template
         [("factor", factor); ("factor_shares", factor_share);
          ("epsilon", epsilon)]) <$> zip fs ss in
  let eq_production :=
    safe_substitute "$output = $TFP * ($inner) ** ($epsilon / ($epsilon - 1))"
      [("output", output); ("inner", join " + " production_inner);
       ("TFP", TFP); ("epsilon", epsilon)] in
  let factor_demand_template :=
    "$factor = $output / $TFP * (($factor_share) * $output_price * $TFP / $factor_price) ** "
    +:+ "$epsilon" in
  fs ← iter factors;
  ps ← iter factor_prices;
  ss ← iter factor_shares;
  let eq_fac_demands :=
    (λ '(factor, (factor_price, factor_share)),
       safe_substitute factor_demand_template
         [("factor", factor); ("factor_price", factor_price);
          ("output", output); ("output_price", output_price);
          ("factor_share", factor_share); ("TFP", TFP);
          ("epsilon", epsilon)]) <$> zip fs (zip ps ss) in
  mret (eq_production :: eq_fac_demands).

(** ** [dixit_stiglitz] *)

Definition dixit_stiglitz (factors factor_prices : value)
    (output output_price epsilon dims : string)
    (coords : gmap string (list string)) (backend : string)
    (TFP : option string) (factor_shares : option value) : M (string * string) :=
  for_each (zip [Some factors; Some factor_prices; factor_shares]
                ["factors"; "factor_prices"; "factor_shares"])
    (λ '(var, name),
       match var with
       | Some (VList a) =>
           n ← len (VList a);
           if decide (n ≠ 1)
           then raise (ValueError
                  ("Dixit-Stiglitz production function expects only a single factor input, but provided "
                   +:+ name +:+ " has length " +:+ str_int (Z.of_nat n)))
           else mret ()
       | _ => mret ()
       end) ;;
  factors ← unwrap_singleton_list factors;
  factor_prices ← unwrap_singleton_list factor_prices;
  factor_shares ← unwrap_singleton_opt factor_shares;
  let share_str := if factor_shares is Some _ then "$factor_share * " else EmptyString in
  let TFP_str := if TFP is Some _ then "$TFP * " else EmptyString in
  let kernel_str := share_str +:+ "$factor ** (($epsilon - 1) / $epsilon)" in
  s_share ← str_opt factor_shares;
  s_factor ← str factors;
  s_price ← str factor_prices;
  let s_TFP := default "None" TFP in
  let kernel :=
    safe_substitute kernel_str
      [("factor_share", s_share); ("factor", s_factor); ("epsilon", epsilon)] in
  labels ← dict_getitem coords dims;
  let dim_len := (Z.of_nat (length labels) - 1)%Z in
  rhs_str ←
    (if String.eqb backend "numba"
     then mret "Sum($kernel, ($dims, 0, $dim_len)) ** ($epsilon / ($epsilon - 1))"
     else if String.eqb backend "pytensor"
     then mret "($kernel).sum() ** ($epsilon / ($epsilon - 1))"
     else raise (ValueError ("backend must be one of 'numba' or 'pytensor', found "
                             +:+ backend)));
  let production_function :=
    safe_substitute ("$output = " +:+ TFP_str +:+ rhs_str)
      [("output", output); ("TFP", s_TFP); ("kernel", kernel);
       ("epsilon", epsilon); ("dims", dims); ("dim_len", str_int dim_len)] in
  let demand_template :=
    "$factor = $output / " +:+ TFP_str +:+ "(" +:+ TFP_str +:+ share_str
    +:+ "$output_price / $factor_price) ** $epsilon" in
  let factor_demands :=
    safe_substitute demand_template
      [("factor", s_factor); ("output", output); ("TFP", s_TFP);
       ("factor_share", s_share); ("output_price", output_price);
       ("factor_price", s_price); ("epsilon", epsilon)] in
  mret (production_function, factor_demands).

(** ** [leontief] *)

Definition _1d_leontief (factors factor_prices : value)
    (output output_price : string) (factor_shares : value) : M (list string) :=
  fs ← iter factors;
  ps ← iter factor_prices;
  let zp_rhs := join " + " ((λ '(factor, price), price +:+ " * " +:+ factor)
                            <$> zip fs ps) in
  let zero_profit := output_price +:+ " * " +:+ output +:+ " = " +:+ zp_rhs in
  fs ← iter factors;
  ss ← iter factor_shares;
  let factor_demands :=
    (λ '(factor, share), factor +:+ " = " +:+ output +:+ " * " +:+ share)
    <$> zip fs ss in
  mret (zero_profit :: factor_demands).

Definition ascii_lowercase : string := "abcdefghijklmnopqrstuvwxyz".

(** The order of [str]: lexicographic on code points. *)
Definition str_le (s1 s2 : string) : Prop := String.leb s1 s2 = true.

#[global] Instance str_le_dec : RelDecision str_le.
Proof. intros s1 s2. unfold str_le. apply _. Defined.

(** [sorted(l)]. *)
Definition sorted (l : list string) : list string := merge_sort str_le l.

Definition _swapaxes (x : value) (i j : string) : M string :=
  s ← str x;
  mret (safe_substitute "$x.subs({$i:$j})" [("x", s); ("i", i); ("j", j)]).

(** [sorted(list(set(string.ascii_lowercase) - named_dims))] with
    [named_dims = set(list(coords.keys()))]. *)
Definition temp_dims (coords : gmap string (list string)) : list string :=
  let named_dims : gset string := dom coords in
  sorted (elements (list_to_set (chars ascii_lowercase) ∖ named_dims)).

Definition _T (x : value) (i j : string) (coords : gmap string (list string))
    : M string :=
  match temp_dims coords with
  | [] => raise (IndexError "list index out of range")
  | temp_dim :: _ =>
      match x with
      | VList _ =>
          raise (TypeError ("can only concatenate list (not "
                            +:+ String quote2 ("str" +:+ String quote2 ") to list")))
      | VStr x =>
          mret (x +:+ ".subs([(" +:+ i +:+ ", " +:+ temp_dim +:+ "), ("
                +:+ j +:+ ", " +:+ i +:+ "), (" +:+ temp_dim +:+ ", " +:+ j
                +:+ ")])")
      end
  end.

Definition _2d_leontief (factors factor_prices : value)
    (output output_price : string) (factor_shares dims : value)
    (coords : gmap string (list string)) (backend : string) : M (list string) :=
  factors ← unwrap_singleton_list factors;
  factor_prices ← unwrap_singleton_list factor_prices;
  factor_shares ← unwrap_singleton_list factor_shares;
  if String.eqb backend "numba" then
    ds ← iter dims;
    match ds with
    | [core_dim; batch_dim] =>
        sw ← _swapaxes factor_prices core_dim batch_dim;
        tr ← _T factors core_dim batch_dim coords;
        labels ← dict_getitem coords batch_dim;
        let rhs :=
          "Sum(" +:+ sw +:+ " * " +:+ tr +:+ ", "
          +:+ "(" +:+ batch_dim +:+ ", 0, "
          +:+ str_int (Z.of_nat (length labels) - 1) +:+ "))" in
        let zero_profit := output_price +:+ " * " +:+ output +:+ " = " +:+ rhs in
        s_factors ← str factors;
        s_shares ← str factor_shares;
        sw_out ← _swapaxes (VStr output) core_dim batch_dim;
        let factor_demands := s_factors +:+ " = " +:+ s_shares +:+ " * " +:+ sw_out in
        mret [zero_profit; factor_demands]
    | [] | [_] =>
        raise (ValueError ("not enough values to unpack (expected 2, got "
                           +:+ str_int (Z.of_nat (length ds)) +:+ ")"))
    | _ => raise (ValueError "too many values to unpack (expected 2)")
    end
  else if String.eqb backend "pytensor" then
    s_prices ← str factor_prices;
    s_factors ← str factors;
    let zero_profit :=
      output_price +:+ " * " +:+ output +:+ " = (" +:+ s_prices
      +:+ "[:, None] * " +:+ s_factors +:+ ").sum(axis=0).ravel()" in
    s_factors ← str factors;
    s_shares ← str factor_shares;
    let factor_demands :=
      s_factors +:+ " = " +:+ s_shares +:+ " * " +:+ output +:+ "[None]" in
    mret [zero_profit; factor_demands]
  else raise (ValueError ("backend must be one of 'numba' or 'pytensor', found "
                          +:+ backend)).

Definition leontief (factors factor_prices : value)
    (output output_price : string) (factor_shares dims : value)
    (coords : gmap string (list string)) (backend : string) : M (list string) :=
  _check_pairwise_lengths_match
    ["factors"; "factor_prices"; "factor_shares"]
    [factors; factor_prices; factor_shares] ;;
  one_dim ← (if isinstance_str dims then mret true
             else n ← len dims; mret (bool_decide (n = 1)));
  if (one_dim : bool) then
    n ← len factors;
    if decide (n = 1)
    then n ← len factors;
         raise (ValueError
           ("Leontief production function expects at least two factors when len(dims) == 1, found "
            +:+ str_int (Z.of_nat n)))
    else _1d_leontief factors factor_prices output output_price factor_shares
  else
    n ← len factors;
    if decide (n ≠ 1)
    then n ← len factors;
         raise (ValueError
           ("Leontief production function expects exactly one factor when len(dims) == 2, found "
            +:+ str_int (Z.of_nat n)))
    else _2d_leontief factors factor_prices output output_price factor_shares
           dims coords backend.

(** ** Notions used in the statements *)

(** A call supplies exactly one share string [s]: as a bare string or as a
    one-element list. *)
Definition one_share (h : store) (alpha : value) (s : string) : Prop :=
  alpha = VStr s ∨ ∃ a, alpha = VList a ∧ h !! a = Some [s].

(** The items of a list-valued result. *)
Definition items (h : store) (x : value) : option (list string) :=
  match x with
  | VList a => h !! a
  | VStr _ => None
  end.

(** A value refers to an object of the store. *)
Definition wf (h : store) (x : value) : Prop :=
  match x with
  | VList a => is_Some (h !! a)
  | VStr _ => True
  end.

(** The supplied argument as a list: a bare string counts as one item. *)
Definition as_list (h : store) (x : value) : option (list string) :=
  match x with
  | VList a => h !! a
  | VStr s => Some [s]
  end.

(** A call supplies exactly two factors: a list of two items. *)
Definition two_factors (h : store) (factors : value) : Prop :=
  ∃ af fs, factors = VList af ∧ h !! af = Some fs ∧ length fs = 2.

(** *** The equations of a CES technology, as the specification writes them *)

Section ces_equations.
Context (output output_price TFP epsilon : string).

(** [(share) * factor ** ((epsilon - 1) / epsilon)] *)
Definition ces_term (factor share : string) : string :=
  "(" +:+ share +:+ ") * " +:+ factor
  +:+ " ** ((" +:+ epsilon +:+ " - 1) / " +:+ epsilon +:+ ")".

(** [output = TFP * (term_1 + ... + term_n) ** (epsilon / (epsilon - 1))] *)
Definition ces_production (terms : list string) : string :=
  output +:+ " = " +:+ TFP +:+ " * (" +:+ join " + " terms
  +:+ ") ** (" +:+ epsilon +:+ " / (" +:+ epsilon +:+ " - 1))".

(** [factor = output / TFP * ((share) * output_price * TFP / factor_price) ** epsilon] *)
Definition ces_demand (factor factor_price share : string) : string :=
  factor +:+ " = " +:+ output +:+ " / " +:+ TFP
  +:+ " * ((" +:+ share +:+ ") * " +:+ output_price +:+ " * " +:+ TFP
  +:+ " / " +:+ factor_price +:+ ") ** " +:+ epsilon.
End ces_equations.

(** [len(x)] and the items [iter(x)] yields, read off a store. *)
Definition len_of (h : store) (x : value) : option nat :=
  match x with
  | VStr s => Some (String.length s)
  | VList a => length <$> h !! a
  end.

Definition iter_of (h : store) (x : value) : option (list string) :=
  match x with
  | VStr s => Some (chars s)
  | VList a => h !! a
  end.

(** The three parallel arguments pass [_check_pairwise_lengths_match]: taken
    as lists they have the same length. *)
Definition lengths_match (h : store) (x y z : value) : Prop :=
  ∃ lx ly lz, as_list h x = Some lx ∧ as_list h y = Some ly
              ∧ as_list h z = Some lz
              ∧ length lx = length ly ∧ length lx = length lz.

(** [dims] is a bare string or a one-element list: the 1-D path. *)
Definition one_dim (h : store) (dims : value) : Prop :=
  match dims with
  | VStr _ => True
  | VList a => ∃ d, h !! a = Some [d]
  end.

(** [dims] is the list [[core_dim, batch_dim]]. *)
Definition two_dims (h : store) (dims : value) (core_dim batch_dim : string) : Prop :=
  ∃ a, dims = VList a ∧ h !! a = Some [core_dim; batch_dim].

(** [dims] is a list whose length is not one: the 2-D path. *)
Definition not_one_dim (h : store) (dims : value) : Prop :=
  ∃ a ds, dims = VList a ∧ h !! a = Some ds ∧ length ds ≠ 1.

(** *** The errors of the specification's taxonomy, as the module raises them *)

Definition length_mismatch (name1 name2 : string) : exn :=
  ValueError ("Lengths of " +:+ name1 +:+ " and " +:+ name2 +:+ " do not match").

Definition cardinality_1d (n : nat) : exn :=
  ValueError
    ("Leontief production function expects at least two factors when len(dims) == 1, found "
     +:+ str_int (Z.of_nat n)).

Definition cardinality_2d (n : nat) : exn :=
  ValueError
    ("Leontief production function expects exactly one factor when len(dims) == 2, found "
     +:+ str_int (Z.of_nat n)).

Definition unsupported_backend (backend : string) : exn :=
  ValueError ("backend must be one of 'numba' or 'pytensor', found " +:+ backend).

(** A backend value is one of the two supported ones. *)
Definition supported (backend : string) : Prop :=
  backend = "numba" ∨ backend = "pytensor".

(** *** The equations of a 1-D Leontief technology *)

(** [price * factor] *)
Definition leontief_cost (factor price : string) : string :=
  price +:+ " * " +:+ factor.

(** [output_price * output = price_1 * factor_1 + ...] *)
Definition leontief_zero_profit (output output_price : string)
    (costs : list string) : string :=
  output_price +:+ " * " +:+ output +:+ " = " +:+ join " + " costs.

(** [factor = output * share] *)
Definition leontief_demand (output factor share : string) : string :=
  factor +:+ " = " +:+ output +:+ " * " +:+ share.

(** [x] is the bare string [s] after singleton-list unwrapping: the string
    itself, or a list whose one item is [s]. *)
Definition single (h : store) (x : value) (s : string) : Prop :=
  match x with
  | VStr s' => s' = s
  | VList a => h !! a = Some [s]
  end.

Definition single_opt (h : store) (x : option value) (s : option string) : Prop :=
  match x, s with
  | None, None => True
  | Some x, Some s => single h x s
  | _, _ => False
  end.

(** *** The equations of a Dixit-Stiglitz technology

    An omitted share or technology parameter leaves no text behind. *)

Section ds_equations.
Context (output output_price epsilon dims : string).
Context (TFP share : option string).

(** The optional prefixes [TFP * ] and [share * ] of the text that
    follows. *)
Definition ds_TFP (rest : string) : string :=
  if TFP is Some t then t +:+ " * " +:+ rest else rest.
Definition ds_share (rest : string) : string :=
  if share is Some s then s +:+ " * " +:+ rest else rest.

(** [[share *] factor ** ((epsilon - 1) / epsilon)] *)
Definition ds_kernel (factor : string) : string :=
  ds_share (factor +:+ " ** ((" +:+ epsilon +:+ " - 1) / " +:+ epsilon +:+ ")").

(** [output = [TFP *] Sum(kernel, (dims, 0, dim_len)) ** (epsilon / (epsilon - 1))] *)
Definition ds_production_summation (factor : string) (dim_len : Z) : string :=
  output +:+ " = "
  +:+ ds_TFP ("Sum(" +:+ ds_kernel factor +:+ ", (" +:+ dims +:+ ", 0, "
              +:+ str_int dim_len +:+ ")) ** (" +:+ epsilon +:+ " / ("
              +:+ epsilon +:+ " - 1))").

(** [output = [TFP *] (kernel).sum() ** (epsilon / (epsilon - 1))] *)
Definition ds_production_vectorized (factor : string) : string :=
  output +:+ " = "
  +:+ ds_TFP ("(" +:+ ds_kernel factor +:+ ").sum() ** (" +:+ epsilon
              +:+ " / (" +:+ epsilon +:+ " - 1))").

(** [factor = output / [TFP *] ([TFP *][share *] output_price / factor_price) ** epsilon] *)
Definition ds_demand (factor factor_price : string) : string :=
  factor +:+ " = " +:+ output +:+ " / "
  +:+ ds_TFP ("(" +:+ ds_TFP (ds_share (output_price +:+ " / "
                                        +:+ factor_price +:+ ") ** "
                                        +:+ epsilon))).
End ds_equations.

(** *** The temporary index of the transpose *)

(** [t] is the first lowercase letter, in alphabetical order, that is not a
    key of [coords]. *)
Definition first_free_letter (coords : gmap string (list string)) (t : string) : Prop :=
  ∃ i, chars ascii_lowercase !! i = Some t
       ∧ (t ∉ dom coords)
       ∧ ∀ j c, (j < i)%nat → chars ascii_lowercase !! j = Some c → c ∈ dom coords.

(** The substitution list of the transpose, after the expression [x]:
    [core_dim] to [temp], [batch_dim] to [core_dim], [temp] to [batch_dim]. *)
Definition transposed (x core_dim batch_dim temp : string) : string :=
  x +:+ ".subs([(" +:+ core_dim +:+ ", " +:+ temp +:+ "), ("
  +:+ batch_dim +:+ ", " +:+ core_dim +:+ "), ("
  +:+ temp +:+ ", " +:+ batch_dim +:+ ")])".

(** *** The equations of a 2-D Leontief technology *)

(** What [_swapaxes] writes: the expression [x], then the request to the
    symbolic backend to substitute [batch_dim] for [core_dim]. *)
Definition swapped (x core_dim batch_dim : string) : string :=
  x +:+ ".subs({" +:+ core_dim +:+ ":" +:+ batch_dim +:+ "})".

Section leontief_2d_equations.
Context (output output_price factor factor_price share : string).

(** [output_price * output = Sum(swap * transpose, (batch_dim, 0, upper))] *)
Definition zero_profit_summation (swap transpose batch_dim : string)
    (upper : Z) : string :=
  output_price +:+ " * " +:+ output +:+ " = Sum(" +:+ swap +:+ " * "
  +:+ transpose +:+ ", (" +:+ batch_dim +:+ ", 0, " +:+ str_int upper +:+ "))".

(** [factors = factor_shares * swap] *)
Definition demand_summation (swap : string) : string :=
  factor +:+ " = " +:+ share +:+ " * " +:+ swap.

(** [output_price * output = (factor_prices[:, None] * factors).sum(axis=0).ravel()] *)
Definition zero_profit_vectorized : string :=
  output_price +:+ " * " +:+ output +:+ " = (" +:+ factor_price
  +:+ "[:, None] * " +:+ factor +:+ ").sum(axis=0).ravel()".

(** [factors = factor_shares * output[None]] *)
Definition demand_vectorized : string :=
  factor +:+ " = " +:+ share +:+ " * " +:+ output +:+ "[None]".
End leontief_2d_equations.

(** *** Textual substitution, as the specification describes the axis swap

    [replace old new s] is [s] with the occurrences of [old] replaced by
    [new], from left to right and without overlap, as [str.replace] does
    for a non-empty [old]. *)
Fixpoint replace_from (old new : string) (skip : nat) (s : string) : string :=
  match s with
  | EmptyString => EmptyString
  | String c s' =>
      match skip with
      | S n => replace_from old new n s'
      | 0 =>
          if String.prefix old s
          then new +:+ replace_from old new (String.length old - 1) s'
          else String c (replace_from old new 0 s')
      end
  end.

Definition replace (old new s : string) : string :=
  if String.eqb old EmptyString then s else replace_from old new 0 s.

(** *** The names [unpack_string_inputs] generates *)

(** The Cartesian product of the pools, taken in their order: the tuples
    that start with the first item of the first pool come first, so the last
    pool varies fastest. *)
Fixpoint cartesian {A} (pools : list (list A)) : list (list A) :=
  match pools with
  | [] => [[]]
  | pool :: pools' => x ← pool; cons x <$> cartesian pools'
  end.

(** The base name and the labels of a tuple, joined with underscores. *)
Definition generated_name (name : string) (labels : list string) : string :=
  join "_" (name :: labels).

(** ** What a computation does to the store *)

(** Whatever [m] returns or raises, the store it leaves is related by [R] to
    the store it started from. *)
Definition preserves {A} (R : relation store) (m : M A) : Prop :=
  ∀ h, R h (m h).2.

(** The store only grew: every object that existed is where it was, with the
    items it had; [k] holds the new objects. *)
Definition grown : relation store := λ h h', ∃ k, h' = h ++ k.

(** Every object that existed, but perhaps the one at [a], is where it was
    with the items it had. *)
Definition same_except (a : addr) : relation store := λ h h',
  ∀ b l, b ≠ a → h !! b = Some l → h' !! b = Some l.

(** The objects of [h] are where they were with the items they had, and
    after them come [n] objects. *)
Definition tail_of (h : store) (n : nat) : relation store := λ s s',
  (∃ cs, s = h ++ cs ∧ length cs = n) → ∃ cs', s' = h ++ cs' ∧ length cs' = n.

(** An argument passes the single-factor validation of [dixit_stiglitz]: it
    is absent, a bare string, or a list of exactly one item. *)
Definition passes_validation (h : store) (var : option value) : Prop :=
  match var with
  | Some (VList a) => ∃ l, h !! a = Some l ∧ length l = 1
  | _ => True
  end.

(** What [unwrap_singleton_list] returns for [x] on the store [h]: the item
    of a one-item list, and [x] itself otherwise. *)
Definition unwrapped (h : store) (x : value) : value :=
  match x with
  | VList a =>
      match h !! a with
      | Some [s] => VStr s
      | _ => VList a
      end
  | VStr s => VStr s
  end.

(** ** Running computations *)

Lemma bind_ok {A B} (m : M A) (f : A → M B) h x h' :
  m h = (Ok x, h') → (m ≫= f) h = f x h'.
Proof. intros H. unfold mbind, M_bind. by rewrite H. Qed.

Lemma bind_raise {A B} (m : M A) (f : A → M B) h e h' :
  m h = (Raise e, h') → (m ≫= f) h = (Raise e, h').
Proof. intros H. unfold mbind, M_bind. by rewrite H. Qed.

Lemma ret_run {A} (x : A) h : (mret x : M A) h = (Ok x, h).
Proof. done. Qed.

Lemma deref_run h a l : h !! a = Some l → deref a h = (Ok l, h).
Proof. intros H. unfold deref. by rewrite H. Qed.

Lemma len_list_run h a l : h !! a = Some l → len (VList a) h = (Ok (length l), h).
Proof. intros H. simpl. by rewrite (bind_ok _ _ _ _ _ (deref_run _ _ _ H)). Qed.

Lemma iter_list_run h a l : h !! a = Some l → iter (VList a) h = (Ok l, h).
Proof. apply deref_run. Qed.

Lemma run_bind {A B} (m : M A) (f : A → M B) h x h' r :
  m h = (Ok x, h') → f x h' = r → (m ≫= f) h = r.
Proof. intros H <-. by apply bind_ok. Qed.

Lemma raise_run {A} e h : (raise e : M A) h = (Raise e, h).
Proof. done. Qed.

Lemma at_least_list_list h a : at_least_list (VList a) h = (Ok (VList a), h).
Proof. done. Qed.

Lemma at_least_list_str h s :
  at_least_list (VStr s) h = (Ok (VList (length h)), h ++ [[s]]).
Proof. done. Qed.

Lemma lookup_fresh {A} (h : list A) x : (h ++ [x]) !! length h = Some x.
Proof. by rewrite lookup_app_r, Nat.sub_diag. Qed.

Lemma lookup_old {A} (h k : list A) a x : h !! a = Some x → (h ++ k) !! a = Some x.
Proof. intros H. rewrite lookup_app_l; [done|]. by eapply lookup_lt_Some. Qed.

Lemma getitem_list_run h a l i s :
  h !! a = Some l → l !! i = Some s → getitem (VList a) i h = (Ok s, h).
Proof.
  intros Ha Hi. unfold getitem.
  eapply run_bind; [by apply deref_run|]. by rewrite Hi.
Qed.

Lemma append_run h a l s :
  h !! a = Some l → append a s h = (Ok (), <[a := l ++ [s]]> h).
Proof. intros H. unfold append. by rewrite H. Qed.

(** Looking up an address in a store built by allocation and update. *)
Ltac solve_lookup :=
  first
    [ eassumption
    | apply lookup_fresh
    | apply lookup_old; solve_lookup
    | apply list_lookup_insert_eq; eapply lookup_lt_Some; solve_lookup ].

Ltac solve_side := first [ done | lia | simpl; lia | congruence ].

Ltac pick_branch :=
  repeat first
    [ rewrite decide_True by solve_side
    | rewrite decide_False by solve_side
    | rewrite bool_decide_eq_true_2 by solve_side
    | rewrite bool_decide_eq_false_2 by solve_side ];
  cbn [negb andb orb isinstance_list isinstance_str].

(** Runs a computation on a store, one primitive at a time. *)
Ltac mrun :=
  lazymatch goal with
  | |- (_ ≫= _) _ = _ =>
      first [ eapply run_bind; [mrun | cbv beta; mrun]
            | eapply bind_raise; mrun ]
  | |- mret _ _ = _ => reflexivity
  | |- raise _ _ = _ => reflexivity
  | |- deref _ _ = _ => apply deref_run; solve_lookup
  | |- len (VStr _) _ = _ => reflexivity
  | |- len (VList _) _ = _ => apply len_list_run; solve_lookup
  | |- iter (VStr _) _ = _ => reflexivity
  | |- iter (VList _) _ = _ => apply iter_list_run; solve_lookup
  | |- alloc _ _ = _ => reflexivity
  | |- at_least_list (VList _) _ = _ => reflexivity
  | |- at_least_list (VStr _) _ = _ => reflexivity
  | |- getitem (VList _) _ _ = _ => eapply getitem_list_run; [solve_lookup | reflexivity]
  | |- append_to (VList _) _ _ = _ => apply append_run; solve_lookup
  | |- append _ _ _ = _ => apply append_run; solve_lookup
  | |- (if _ then _ else _) _ = _ => progress pick_branch; mrun
  end.

Lemma add_second_alpha_two h af fs alpha s :
  h !! af = Some fs → length fs = 2 → one_share h alpha s →
  ∃ v h', _add_second_alpha alpha (VList af) h = (Ok v, h')
          ∧ items h' v = Some [s; "1 - " +:+ s].
Proof.
  intros Hf Hlen [->|(a & -> & Ha)]; eexists _, _;
    (split; [unfold _add_second_alpha; cbn [isinstance_list negb]|]).
  - mrun.
  - simpl. solve_lookup.
  - mrun.
  - simpl. solve_lookup.
Qed.

Lemma add_second_alpha_other h alpha factors :
  wf h factors → ¬ two_factors h factors →
  _add_second_alpha alpha factors h = at_least_list alpha h.
Proof.
  intros Hwf Hnot. unfold _add_second_alpha.
  destruct factors as [f|af]; cbn [isinstance_list negb].
  - by eapply run_bind; [mrun|].
  - destruct Hwf as [fs Hf].
    assert (length fs ≠ 2) by (intros ?; apply Hnot; by exists af, fs).
    eapply run_bind; [mrun|]. by rewrite bool_decide_eq_true_2.
Qed.

Lemma at_least_list_items h alpha :
  wf h alpha →
  ∃ v h', at_least_list alpha h = (Ok v, h') ∧ items h' v = as_list h alpha.
Proof.
  destruct alpha as [s|a]; intros Hwf; eexists _, _; (split; [reflexivity|]); simpl.
  - apply lookup_fresh.
  - done.
Qed.

Lemma two_factors_cases h factors :
  wf h factors → two_factors h factors ∨ ¬ two_factors h factors.
Proof.
  destruct factors as [s|af]; intros Hwf.
  - right. by intros (? & ? & [=] & _).
  - destruct Hwf as [fs Hfs]. destruct (decide (length fs = 2)).
    + left. by exists af, fs.
    + right. intros (? & ? & [= <-] & ? & ?). congruence.
Qed.

(** With exactly two factors and exactly one share string [s],
    [_add_second_alpha] returns the share list [[s, "1 - " + s]]; when the
    number of factors is not two it returns what [at_least_list] returns for
    the supplied shares, whose items are the supplied ones. *)
Lemma add_second_alpha_result h alpha factors :
  wf h factors → wf h alpha →
  ∃ v h', _add_second_alpha alpha factors h = (Ok v, h')
    ∧ (two_factors h factors → ∀ s, one_share h alpha s →
         items h' v = Some [s; "1 - " +:+ s])
    ∧ (¬ two_factors h factors →
         at_least_list alpha h = (Ok v, h') ∧ items h' v = as_list h alpha).
Proof.
  intros Hf Ha.
  destruct (two_factors_cases h factors Hf) as [Htwo|Hnot].
  - destruct Htwo as (af & fs & -> & Hfs & Hlen).
    assert (Htwo : two_factors h (VList af)) by (by exists af, fs).
    destruct alpha as [s|a].
    + destruct (add_second_alpha_two h af fs (VStr s) s Hfs Hlen) as (v & h' & Hrun & Hit);
        [by left|].
      exists v, h'. split; [done|]. split; [|done].
      intros _ s' [[= <-]|(? & [=] & _)]. done.
    + destruct Ha as [l Hl].
      destruct (decide (length l = 1)) as [Hone|Hmany].
      * destruct l as [|s [|]]; try done.
        destruct (add_second_alpha_two h af fs (VList a) s Hfs Hlen) as (v & h' & Hrun & Hit);
          [right; by exists a|].
        exists v, h'. split; [done|]. split; [|done].
        intros _ s' [[=]|(a' & [= <-] & Hs')]. congruence.
      * exists (VList a), h. split; [|split; [|done]].
        -- unfold _add_second_alpha; cbn [isinstance_list negb]. mrun.
        -- intros _ s' [[=]|(a' & [= <-] & Hs')].
           rewrite Hl in Hs'. by injection Hs' as ->.
  - rewrite (add_second_alpha_other _ _ _ Hf Hnot).
    destruct (at_least_list_items h alpha Ha) as (v & h' & Hrun & Hit).
    exists v, h'. done.
Qed.

(** C4 (the code does not have the property): [CES] with two factors and the
    shares given as the one-element list [["alpha"]] appends to that list in
    place; after the call the caller's list is [["alpha", "1 - alpha"]]. *)
Theorem CES_appends_to_factor_shares :
  let h := [["K"; "L"]; ["r"; "w"]; ["alpha"]] in
  ∃ eqs h',
    CES (VList 0) (VList 1) "Y" "P" "A" (VList 2) "eps" h = (Ok eqs, h')
    ∧ h !! 2 = Some ["alpha"]
    ∧ h' !! 2 = Some ["alpha"; "1 - alpha"].
Proof. eexists _, _. split; [vm_compute; reflexivity|]. by split. Qed.

Lemma add_second_alpha_lists h af ash fs ss :
  h !! af = Some fs → h !! ash = Some ss → length fs = length ss →
  _add_second_alpha (VList ash) (VList af) h = (Ok (VList ash), h).
Proof.
  intros Hf Hs Hlen. destruct (decide (length fs = 2)) as [Htwo|Hnot].
  - unfold _add_second_alpha; cbn [isinstance_list negb]. mrun.
  - rewrite add_second_alpha_other; [done|by eexists|].
    intros (? & ? & [= <-] & ? & ?). congruence.
Qed.

(** The length check passes when the three arguments, each taken as a list,
    have the same length; it leaves the store as it is but for the lists it
    wraps bare strings in. *)
Lemma check_lengths_ok h n1 n2 n3 x y z lx ly lz :
  as_list h x = Some lx → as_list h y = Some ly → as_list h z = Some lz →
  length lx = length ly → length lx = length lz →
  ∃ k, _check_pairwise_lengths_match [n1; n2; n3] [x; y; z] h = (Ok (), h ++ k).
Proof.
  intros Hx Hy Hz Hxy Hxz. unfold _check_pairwise_lengths_match. cbn [mapM].
  destruct x as [sx|ax], y as [sy|ay], z as [sz|az]; simpl in Hx, Hy, Hz;
    simplify_eq/=; eexists;
    (eapply run_bind; [mrun|]);
    cbn [combinations2 fmap list_fmap app zip zip_with for_each fst snd];
    (etrans; [mrun|]); rewrite <- ?app_assoc; try reflexivity.
  exact (f_equal (pair (Ok ())) (eq_sym (app_nil_r h))).
Qed.

Lemma check_lengths_lists h n1 n2 n3 af ap ash fs ps ss :
  h !! af = Some fs → h !! ap = Some ps → h !! ash = Some ss →
  length fs = length ps → length fs = length ss →
  _check_pairwise_lengths_match [n1; n2; n3] [VList af; VList ap; VList ash] h
  = (Ok (), h).
Proof.
  intros Hf Hp Hs Hfp Hfs. unfold _check_pairwise_lengths_match. cbn [mapM].
  eapply run_bind; [mrun|].
  cbn [combinations2 fmap list_fmap app zip zip_with for_each fst snd]. mrun.
Qed.

(** C7: for [N >= 1] factors, prices and shares given as lists of the same
    length, [CES] returns [N + 1] equations: the production equation over the
    additive terms [(share) * factor ** ((epsilon - 1) / epsilon)], then one
    demand equation per factor, in the order of the factors; the store is
    left as it was. *)
Theorem CES_equations (h : store) af ap ash (fs ps ss : list string)
    output output_price TFP epsilon :
  h !! af = Some fs → h !! ap = Some ps → h !! ash = Some ss →
  length fs = length ps → length fs = length ss → (1 ≤ length fs)%nat →
  let demands :=
    (λ '(f, (p, s)), ces_demand output output_price TFP epsilon f p s)
    <$> zip fs (zip ps ss) in
  CES (VList af) (VList ap) output output_price TFP (VList ash) epsilon h
  = (Ok (ces_production output TFP epsilon
           ((λ '(f, s), ces_term epsilon f s) <$> zip fs ss) :: demands), h)
  ∧ length demands = length fs
  ∧ ∀ i f p s, fs !! i = Some f → ps !! i = Some p → ss !! i = Some s →
      demands !! i = Some (ces_demand output output_price TFP epsilon f p s).
Proof.
  intros Hf Hp Hs Hfp Hfs Hpos demands. split; [|split].
  - unfold CES.
    eapply run_bind; [by eapply add_second_alpha_lists|].
    eapply run_bind; [by eapply check_lengths_lists|].
    etrans; [mrun|reflexivity].
  - unfold demands. rewrite length_fmap, !length_zip. lia.
  - intros i f p s Hi Hpi Hsi. unfold demands.
    rewrite list_lookup_fmap.
    assert (zip fs (zip ps ss) !! i = Some (f, (p, s))) as ->; [|done].
    rewrite !lookup_zip_with, Hi, Hpi, Hsi. done.
Qed.

Lemma CES_equations_witness :
  CES (VList 0) (VList 1) "Y" "P" "A" (VList 2) "eps"
    [["K"; "L"]; ["r"; "w"]; ["a"; "b"]]
  = (Ok ["Y = A * ((a) * K ** ((eps - 1) / eps) + (b) * L ** ((eps - 1) / eps)) ** (eps / (eps - 1))";
         "K = Y / A * ((a) * P * A / r) ** eps";
         "L = Y / A * ((b) * P * A / w) ** eps"],
     [["K"; "L"]; ["r"; "w"]; ["a"; "b"]]).
Proof.
  exact (proj1 (CES_equations [["K"; "L"]; ["r"; "w"]; ["a"; "b"]] 0 1 2
                  ["K"; "L"] ["r"; "w"] ["a"; "b"] "Y" "P" "A" "eps"
                  eq_refl eq_refl eq_refl eq_refl eq_refl
                  (le_S 1 1 (le_n 1)))).
Defined.

(** C6 (the code does not have the property): [leontief] with one dimension
    and no factor at all passes the length check and the test
    [len(factors) == 1], and returns a zero-profit equation with an empty
    right-hand side instead of raising the error that asks for at least two
    factors. *)
Theorem leontief_1d_no_factor_accepted :
  ∃ h', leontief (VList 0) (VList 1) "Y" "P_Y" (VList 2) (VStr "i")
          {["i" := ["A"; "B"]]} "numba" [[]; []; []]
        = (Ok ["P_Y * Y = "], h').
Proof. eexists. vm_compute. reflexivity. Qed.

(** ** [leontief]: the dispatch *)

Lemma len_run h k x n : len_of h x = Some n → len x (h ++ k) = (Ok n, h ++ k).
Proof.
  destruct x as [s|a]; simpl.
  - by intros [= <-].
  - destruct (h !! a) as [l|] eqn:Ha; [|done]. intros [= <-].
    eapply run_bind; [apply deref_run; by apply lookup_old|done].
Qed.

Lemma iter_run h k x l : iter_of h x = Some l → iter x (h ++ k) = (Ok l, h ++ k).
Proof.
  destruct x as [s|a]; simpl.
  - by intros [= <-].
  - intros Ha. apply deref_run. by apply lookup_old.
Qed.

Lemma check_lengths_match h n1 n2 n3 x y z :
  lengths_match h x y z →
  ∃ k, _check_pairwise_lengths_match [n1; n2; n3] [x; y; z] h = (Ok (), h ++ k).
Proof. intros (lx & ly & lz & ? & ? & ? & ? & ?). by eapply check_lengths_ok. Qed.

Lemma one_dim_run h k dims :
  one_dim h dims →
  (if isinstance_str dims then mret true
   else n ← len dims; mret (bool_decide (n = 1))) (h ++ k) = (Ok true, h ++ k).
Proof.
  destruct dims as [s|a]; simpl; [done|]. intros [d Hd].
  eapply run_bind; [eapply run_bind; [apply deref_run; by apply lookup_old|]|]; done.
Qed.

Lemma not_one_dim_run h k dims :
  not_one_dim h dims →
  (if isinstance_str dims then mret true
   else n ← len dims; mret (bool_decide (n = 1))) (h ++ k) = (Ok false, h ++ k).
Proof.
  intros (a & ds & -> & Hd & Hlen); simpl.
  eapply run_bind; [eapply run_bind; [apply deref_run; by apply lookup_old|]|]; [done|].
  cbv beta. by rewrite bool_decide_eq_false_2.
Qed.

Section leontief_dispatch.
Context (h : store) (factors factor_prices factor_shares dims : value).
Context (output output_price backend : string).
Context (coords : gmap string (list string)).
Context (n : nat).
Hypothesis Hmatch : lengths_match h factors factor_prices factor_shares.
Hypothesis Hlen : len_of h factors = Some n.

Let call := leontief factors factor_prices output output_price factor_shares
              dims coords backend.

Lemma leontief_1d_raise :
  one_dim h dims → n = 1 → ∃ k, call h = (Raise (cardinality_1d 1), h ++ k).
Proof.
  intros Hdim ->. destruct (check_lengths_match h "factors" "factor_prices"
    "factor_shares" _ _ _ Hmatch) as [k Hk]. exists k. unfold call, leontief.
  eapply run_bind; [done|]. eapply run_bind; [by apply one_dim_run|].
  eapply run_bind; [by apply len_run|]. cbv beta. rewrite decide_True by done.
  eapply run_bind; [by apply len_run|]. done.
Qed.

Lemma leontief_1d_run :
  one_dim h dims → n ≠ 1 →
  ∃ k, call h = _1d_leontief factors factor_prices output output_price
                  factor_shares (h ++ k).
Proof.
  intros Hdim Hn. destruct (check_lengths_match h "factors" "factor_prices"
    "factor_shares" _ _ _ Hmatch) as [k Hk]. exists k. unfold call, leontief.
  eapply run_bind; [done|]. eapply run_bind; [by apply one_dim_run|].
  eapply run_bind; [by apply len_run|]. cbv beta. by rewrite decide_False.
Qed.

Lemma leontief_2d_raise :
  not_one_dim h dims → n ≠ 1 → ∃ k, call h = (Raise (cardinality_2d n), h ++ k).
Proof.
  intros Hdim Hn. destruct (check_lengths_match h "factors" "factor_prices"
    "factor_shares" _ _ _ Hmatch) as [k Hk]. exists k. unfold call, leontief.
  eapply run_bind; [done|]. eapply run_bind; [by apply not_one_dim_run|].
  eapply run_bind; [by apply len_run|]. cbv beta. rewrite decide_True by done.
  eapply run_bind; [by apply len_run|]. done.
Qed.

Lemma leontief_2d_run :
  not_one_dim h dims → n = 1 →
  ∃ k, call h = _2d_leontief factors factor_prices output output_price
                  factor_shares dims coords backend (h ++ k).
Proof.
  intros Hdim ->. destruct (check_lengths_match h "factors" "factor_prices"
    "factor_shares" _ _ _ Hmatch) as [k Hk]. exists k. unfold call, leontief.
  eapply run_bind; [done|]. eapply run_bind; [by apply not_one_dim_run|].
  eapply run_bind; [by apply len_run|]. cbv beta. by rewrite decide_False by (by intros []).
Qed.
End leontief_dispatch.

Lemma _1d_leontief_run h k factors factor_prices factor_shares
    output output_price fs ps ss :
  iter_of h factors = Some fs → iter_of h factor_prices = Some ps →
  iter_of h factor_shares = Some ss →
  _1d_leontief factors factor_prices output output_price factor_shares (h ++ k)
  = (Ok (leontief_zero_profit output output_price
           ((λ '(f, p), leontief_cost f p) <$> zip fs ps)
         :: ((λ '(f, s), leontief_demand output f s) <$> zip fs ss)), h ++ k).
Proof.
  intros Hf Hp Hs. unfold _1d_leontief.
  eapply run_bind; [by apply iter_run|]. eapply run_bind; [by apply iter_run|].
  eapply run_bind; [by apply iter_run|]. eapply run_bind; [by apply iter_run|].
  reflexivity.
Qed.

Lemma length_chars s : length (chars s) = String.length s.
Proof. induction s; simpl; congruence. Qed.

(** C10 (as amended): with [factors] a bare string, in a call that passes
    the length validation, the cardinality tests of [leontief] count the
    characters of the string.  On the 1-D path a one-character name
    raises the cardinality error; any other name is accepted and the
    generator walks the characters of the name zipped with the items of
    [factor_prices] and of [factor_shares], so it emits one demand equation
    for each character that has a share item to go with.  On the 2-D path
    exactly the one-character names pass the cardinality test. *)
Theorem leontief_bare_string_factors (h : store) f factor_prices factor_shares
    dims output output_price coords backend (ps ss : list string) :
  lengths_match h (VStr f) factor_prices factor_shares →
  iter_of h factor_prices = Some ps → iter_of h factor_shares = Some ss →
  let call := leontief (VStr f) factor_prices output output_price
                factor_shares dims coords backend in
  let demands := (λ '(c, s), leontief_demand output c s) <$> zip (chars f) ss in
  (one_dim h dims → String.length f = 1 →
     ∃ k, call h = (Raise (cardinality_1d 1), h ++ k))
  ∧ (one_dim h dims → String.length f ≠ 1 →
     (∃ k, call h
        = (Ok (leontief_zero_profit output output_price
                 ((λ '(c, p), leontief_cost c p) <$> zip (chars f) ps)
               :: demands), h ++ k))
     ∧ length demands = String.length f `min` length ss)
  ∧ (not_one_dim h dims → String.length f ≠ 1 →
     ∃ k, call h = (Raise (cardinality_2d (String.length f)), h ++ k))
  ∧ (not_one_dim h dims → String.length f = 1 →
     ∃ k, call h = _2d_leontief (VStr f) factor_prices output output_price
                     factor_shares dims coords backend (h ++ k)).
Proof.
  intros Hmatch Hp Hs call demands. split; [|split; [|split]].
  - intros Hdim Hlen. by eapply leontief_1d_raise.
  - intros Hdim Hlen. split.
    2: { unfold demands. by rewrite length_fmap, length_zip, length_chars. }
    destruct (leontief_1d_run h (VStr f) factor_prices factor_shares dims
                output output_price backend coords (String.length f) Hmatch
                eq_refl Hdim Hlen) as [k Hk].
    exists k. unfold call. rewrite Hk. by eapply _1d_leontief_run.
  - intros Hdim Hlen. by eapply leontief_2d_raise.
  - intros Hdim Hlen. by eapply leontief_2d_run.
Qed.

Lemma leontief_bare_string_factors_witness :
  ∃ k, leontief (VStr "KL") (VStr "r") "Y" "P_Y" (VList 0) (VStr "i")
         {["i" := ["A"; "B"]]} "numba" [["a"]]
       = (Ok ["P_Y * Y = r * K"; "K = Y * a"], [["a"]] ++ k).
Proof.
  refine (proj1 (proj1 (proj2 (leontief_bare_string_factors [["a"]] "KL" (VStr "r") (VList 0)
            (VStr "i") "Y" "P_Y" {["i" := ["A"; "B"]]} "numba" ["r"] ["a"] _ eq_refl eq_refl))
            I _)).
  - by exists ["KL"], ["r"], ["a"].
  - simpl. lia.
Defined.

(** C10 as stated fails: the two-character factor name ["KL"] with the shares
    given as a one-element list is accepted on the 1-D path, and one demand
    equation comes out, not one per character. *)
Lemma leontief_bare_string_counterexample :
  ¬ ∃ zero_profit demands h',
      leontief (VStr "KL") (VStr "r") "Y" "P_Y" (VList 0) (VStr "i")
        {["i" := ["A"; "B"]]} "numba" [["a"]]
      = (Ok (zero_profit :: demands), h')
      ∧ length demands = String.length "KL".
Proof.
  intros (zp & demands & h' & Hrun & Hlen). vm_compute in Hrun.
  injection Hrun as <- <- <-. discriminate Hlen.
Qed.

(** ** [dixit_stiglitz] *)

Lemma append_assoc (s1 s2 s3 : string) :
  (s1 +:+ s2) +:+ s3 = s1 +:+ (s2 +:+ s3).
Proof.
  induction s1 as [|a s1 IH]; [done|].
  change (String a ((s1 +:+ s2) +:+ s3) = String a (s1 +:+ (s2 +:+ s3))).
  by rewrite IH.
Qed.


Lemma unwrap_single_run h x s :
  single h x s → unwrap_singleton_list x h = (Ok (VStr s), h).
Proof.
  destruct x as [s'|a]; [by intros ->|].
  intros Ha. unfold single in Ha. unfold unwrap_singleton_list. mrun.
Qed.

Lemma unwrap_single_opt_run h x s :
  single_opt h x s → unwrap_singleton_opt x h = (Ok (VStr <$> s), h).
Proof.
  destruct x as [x|], s as [s|]; simpl; try done. intros Hx.
  eapply run_bind; [by apply unwrap_single_run|done].
Qed.

Lemma dict_getitem_run {V} (d : gmap string V) k v h :
  d !! k = Some v → dict_getitem d k h = (Ok v, h).
Proof. intros H. unfold dict_getitem. by rewrite H. Qed.

Lemma dict_getitem_raise {V} (d : gmap string V) k h :
  d !! k = None → dict_getitem d k h = (Raise (KeyError k), h).
Proof. intros H. unfold dict_getitem. by rewrite H. Qed.

Section dixit_stiglitz_run.
Context (h : store) (factors factor_prices : value).
Context (factor_shares : option value) (TFP : option string).
Context (output output_price epsilon dims : string).
Context (coords : gmap string (list string)).
Context (f p : string) (share : option string) (labels : list string).
Hypothesis Hf : single h factors f.
Hypothesis Hp : single h factor_prices p.
Hypothesis Hs : single_opt h factor_shares share.
Hypothesis Hdims : coords !! dims = Some labels.

Let call backend :=
  dixit_stiglitz factors factor_prices output output_price epsilon
    dims coords backend TFP factor_shares.

Lemma ds_validation_run :
  for_each (zip [Some factors; Some factor_prices; factor_shares]
                ["factors"; "factor_prices"; "factor_shares"])
    (λ '(var, name),
       match var with
       | Some (VList a) =>
           n ← len (VList a);
           if decide (n ≠ 1)
           then raise (ValueError
                  ("Dixit-Stiglitz production function expects only a single factor input, but provided "
                   +:+ name +:+ " has length " +:+ str_int (Z.of_nat n)))
           else mret ()
       | _ => mret ()
       end) h = (Ok (), h).
Proof.
  cbn [zip zip_with for_each].
  destruct factors as [?|?], factor_prices as [?|?],
    factor_shares as [[?|?]|], share as [?|]; simpl in Hf, Hp, Hs; try done; mrun.
Qed.

Ltac ds_prefix :=
  unfold call, dixit_stiglitz;
  (eapply run_bind; [apply ds_validation_run|]);
  (eapply run_bind; [by apply unwrap_single_run|]);
  (eapply run_bind; [by apply unwrap_single_run|]);
  (eapply run_bind; [by apply unwrap_single_opt_run|]);
  cbv beta;
  destruct share as [s|], TFP as [t|];
    cbn [fmap option_fmap option_map str_opt str default];
    do 3 (eapply run_bind; [reflexivity|]);
    (eapply run_bind; [by apply dict_getitem_run|]);
    cbv beta.

Lemma ds_summation_run :
  call "numba" h
  = (Ok (ds_production_summation output epsilon dims TFP share f
           (Z.of_nat (length labels) - 1),
         ds_demand output output_price epsilon TFP share f p), h).
Proof. ds_prefix; reflexivity. Qed.

Lemma ds_vectorized_run :
  call "pytensor" h
  = (Ok (ds_production_vectorized output epsilon TFP share f,
         ds_demand output output_price epsilon TFP share f p), h).
Proof. ds_prefix; reflexivity. Qed.

Lemma ds_unsupported_run backend :
  ¬ supported backend → call backend h = (Raise (unsupported_backend backend), h).
Proof.
  intros Hb.
  assert (String.eqb backend "numba" = false) as Hn
    by (apply String.eqb_neq; intros ->; apply Hb; by left).
  assert (String.eqb backend "pytensor" = false) as Hp'
    by (apply String.eqb_neq; intros ->; apply Hb; by right).
  ds_prefix; rewrite Hn, Hp'; reflexivity.
Qed.
End dixit_stiglitz_run.

(** C8 (as amended): a [dixit_stiglitz] call whose arguments pass the
    single-factor validation, with the dimension a key of [coords] and the
    backend one of the two supported ones, returns exactly the pair of the
    production equation and the factor demand.  An omitted share or TFP
    leaves no text in the kernel and the equations; a supplied TFP is written
    twice in the demand, before and inside the parenthesis. *)
Theorem dixit_stiglitz_equations (h : store) factors factor_prices factor_shares
    TFP output output_price epsilon dims (coords : gmap string (list string))
    backend f p share labels :
  single h factors f → single h factor_prices p →
  single_opt h factor_shares share →
  coords !! dims = Some labels → supported backend →
  let production :=
    if String.eqb backend "numba"
    then ds_production_summation output epsilon dims TFP share f
           (Z.of_nat (length labels) - 1)
    else ds_production_vectorized output epsilon TFP share f in
  let demand := ds_demand output output_price epsilon TFP share f p in
  dixit_stiglitz factors factor_prices output output_price epsilon dims coords
    backend TFP factor_shares h
  = (Ok (production, demand), h)
  ∧ (∀ t, TFP = Some t →
       demand = f +:+ " = " +:+ output +:+ " / " +:+ t +:+ " * (" +:+ t +:+ " * "
                +:+ ds_share share (output_price +:+ " / " +:+ p +:+ ") ** "
                                    +:+ epsilon))
  ∧ (TFP = None →
       demand = f +:+ " = " +:+ output +:+ " / (" 
                +:+ ds_share share (output_price +:+ " / " +:+ p +:+ ") ** "
                                    +:+ epsilon))
  ∧ (share = None →
       ds_kernel epsilon share f
       = f +:+ " ** ((" +:+ epsilon +:+ " - 1) / " +:+ epsilon +:+ ")")
  ∧ (∀ s, share = Some s →
       ds_kernel epsilon share f
       = s +:+ " * " +:+ f +:+ " ** ((" +:+ epsilon +:+ " - 1) / " +:+ epsilon +:+ ")").
Proof.
  intros Hf Hp Hs Hdims Hb production demand. split.
  - destruct Hb as [-> | ->].
    + by eapply ds_summation_run.
    + by eapply ds_vectorized_run.
  - repeat split; intros; subst; reflexivity.
Qed.

Lemma dixit_stiglitz_equations_witness :
  dixit_stiglitz (VList 0) (VStr "P_X") "Y" "P_Y" "eps" "i"
    {["i" := ["A"; "B"; "C"]]} "numba" (Some "A") None [["X"]]
  = (Ok ("Y = A * Sum(X ** ((eps - 1) / eps), (i, 0, 2)) ** (eps / (eps - 1))",
         "X = Y / A * (A * P_Y / P_X) ** eps"), [["X"]]).
Proof.
  exact (proj1 (dixit_stiglitz_equations [["X"]] (VList 0) (VStr "P_X") None
                  (Some "A") "Y" "P_Y" "eps" "i" {["i" := ["A"; "B"; "C"]]}
                  "numba" "X" "P_X" None ["A"; "B"; "C"]
                  eq_refl eq_refl I eq_refl (or_introl eq_refl))).
Defined.

(** C8 as stated fails: passing the single-factor validation is not enough
    for a pair of equations to come back.  With the dimension ["i"] missing
    from [coords] the call raises [KeyError], and with the backend ["jax"]
    it raises the unsupported-backend error. *)
Lemma dixit_stiglitz_equations_counterexample :
  (¬ ∃ production demand h',
       dixit_stiglitz (VList 0) (VStr "P_X") "Y" "P_Y" "eps" "i"
         {["j" := ["A"; "B"; "C"]]} "numba" (Some "A") None [["X"]]
       = (Ok (production, demand), h'))
  ∧ (¬ ∃ production demand h',
       dixit_stiglitz (VList 0) (VStr "P_X") "Y" "P_Y" "eps" "i"
         {["i" := ["A"; "B"; "C"]]} "jax" (Some "A") None [["X"]]
       = (Ok (production, demand), h')).
Proof.
  split; intros (production & demand & h' & Hrun);
    vm_compute in Hrun; discriminate Hrun.
Qed.

(** ** The order of strings and [sorted] *)

Lemma ascii_compare_N a b :
  Ascii.compare a b = N.compare (N_of_ascii a) (N_of_ascii b).
Proof. done. Qed.

Lemma string_compare_le_trans s1 s2 s3 :
  String.compare s1 s2 ≠ Gt → String.compare s2 s3 ≠ Gt →
  String.compare s1 s3 ≠ Gt.
Proof.
  revert s2 s3. induction s1 as [|a s1 IH]; intros [|b s2] [|c s3]; simpl; try done.
  rewrite !ascii_compare_N.
  destruct (N.compare_spec (N_of_ascii a) (N_of_ascii b)) as [Hab|Hab|Hab];
    destruct (N.compare_spec (N_of_ascii b) (N_of_ascii c)) as [Hbc|Hbc|Hbc];
    try done; intros H1 H2.
  - rewrite Hab, Hbc, N.compare_refl. by eapply IH.
  - by rewrite Hab, (proj2 (N.compare_lt_iff _ _) Hbc).
  - by rewrite <- Hbc, (proj2 (N.compare_lt_iff _ _) Hab).
  - by rewrite (proj2 (N.compare_lt_iff _ _) (N.lt_trans _ _ _ Hab Hbc)).
Qed.

Lemma str_le_compare s1 s2 : str_le s1 s2 ↔ String.compare s1 s2 ≠ Gt.
Proof. unfold str_le, String.leb. by destruct (String.compare s1 s2). Qed.

#[global] Instance str_le_trans : Transitive str_le.
Proof.
  intros s1 s2 s3. rewrite !str_le_compare. apply string_compare_le_trans.
Qed.

#[global] Instance str_le_total : Total str_le.
Proof. intros s1 s2. apply String.leb_total. Qed.

#[global] Instance str_le_antisymm : AntiSymm (=) str_le.
Proof. intros s1 s2. apply String.leb_antisym. Qed.

Lemma StronglySorted_filter {A} (R : relation A) (P : A → Prop)
    `{∀ x, Decision (P x)} l :
  StronglySorted R l → StronglySorted R (filter P l).
Proof.
  induction 1 as [|x l Hl IH Hx]; [constructor|].
  rewrite filter_cons. case_decide; [|done].
  constructor; [done|]. apply Forall_forall. intros y Hy.
  apply list_elem_of_filter in Hy as [_ Hy]. by eapply Forall_forall in Hx.
Qed.

(** Sorting the set difference gives the lowercase letters that are not keys,
    in alphabetical order. *)
Lemma temp_dims_filter coords :
  temp_dims coords = filter (λ c, c ∉ dom coords) (chars ascii_lowercase).
Proof.
  unfold temp_dims, sorted. apply (StronglySorted_unique str_le).
  - apply Sorted_StronglySorted; [apply _|]. apply Sorted_merge_sort, _.
  - apply StronglySorted_filter. refine (bool_decide_unpack _ _); by vm_compute.
  - rewrite merge_sort_Permutation. apply NoDup_Permutation.
    + apply NoDup_elements.
    + apply NoDup_filter. refine (bool_decide_unpack _ _); by vm_compute.
    + intros c. rewrite elem_of_elements, elem_of_difference,
        elem_of_list_to_set, list_elem_of_filter. tauto.
Qed.

Lemma head_filter_first {A} (P : A → Prop) `{∀ x, Decision (P x)} (l : list A) t :
  head (filter P l) = Some t ↔
  ∃ i, l !! i = Some t ∧ P t ∧ ∀ j c, (j < i)%nat → l !! j = Some c → ¬ P c.
Proof.
  induction l as [|x l IH]; simpl.
  - split; [done|]. by intros (i & ? & _).
  - rewrite filter_cons. case_decide as Hx; simpl.
    + split.
      * intros [= <-]. exists 0. split; [done|]. split; [done|]. lia.
      * intros ([|i] & Hi & Ht & Hmin); [by simplify_eq/=|].
        destruct (Hmin 0 x); [lia|done|done].
    + rewrite IH. split.
      * intros (i & Hi & Ht & Hmin). exists (S i). split; [done|]. split; [done|].
        intros [|j] c Hj Hc; simplify_eq/=; [done|]. eapply Hmin; [|done]. lia.
      * intros ([|i] & Hi & Ht & Hmin); simplify_eq/=; [done|].
        exists i. split; [done|]. split; [done|].
        intros j c Hj Hc. apply (Hmin (S j) c); [lia|done].
Qed.

Lemma head_temp_dims coords t :
  head (temp_dims coords) = Some t ↔ first_free_letter coords t.
Proof.
  rewrite temp_dims_filter, head_filter_first. unfold first_free_letter.
  split; intros (i & Hi & Ht & Hmin); exists i; (split; [done|]); (split; [done|]).
  - intros j c Hj Hc. destruct (decide (c ∈ dom coords)); [done|].
    by destruct (Hmin j c).
  - intros j c Hj Hc Hnot. by apply Hnot, (Hmin j c).
Qed.

Lemma _T_run h x core_dim batch_dim coords t :
  first_free_letter coords t →
  _T (VStr x) core_dim batch_dim coords h
  = (Ok (transposed x core_dim batch_dim t), h).
Proof.
  intros Ht%head_temp_dims. unfold _T.
  destruct (temp_dims coords) as [|t' ?]; simplify_eq/=. done.
Qed.



(** ** [_2d_leontief] *)

Lemma single_old h k x s : single h x s → single (h ++ k) x s.
Proof. destruct x; simpl; [done|]. apply lookup_old. Qed.

Lemma single_as_list h x s : single h x s → as_list h x = Some [s].
Proof. destruct x; simpl; [by intros ->|done]. Qed.

Lemma singles_lengths_match h x y z f p s :
  single h x f → single h y p → single h z s → lengths_match h x y z.
Proof.
  intros Hx%single_as_list Hy%single_as_list Hz%single_as_list.
  by exists [f], [p], [s].
Qed.

Lemma iter_of_run h x l : iter_of h x = Some l → iter x h = (Ok l, h).
Proof. intros H. rewrite <- (app_nil_r h). by apply iter_run. Qed.

Section leontief_2d_run.
Context (h : store) (factors factor_prices factor_shares dims : value).
Context (output output_price : string).
Context (coords : gmap string (list string)).
Context (f p s : string).
Hypothesis Hf : single h factors f.
Hypothesis Hp : single h factor_prices p.
Hypothesis Hs : single h factor_shares s.

Let call := _2d_leontief factors factor_prices output output_price
              factor_shares dims coords.

Ltac unwrap3 :=
  unfold call, _2d_leontief;
  (eapply run_bind; [by apply unwrap_single_run|]);
  (eapply run_bind; [by apply unwrap_single_run|]);
  (eapply run_bind; [by apply unwrap_single_run|]);
  cbv beta.

Lemma _2d_unsupported_run backend :
  ¬ supported backend → call backend h = (Raise (unsupported_backend backend), h).
Proof.
  intros Hb.
  assert (String.eqb backend "numba" = false) as Hn
    by (apply String.eqb_neq; intros ->; apply Hb; by left).
  assert (String.eqb backend "pytensor" = false) as Hp'
    by (apply String.eqb_neq; intros ->; apply Hb; by right).
  unwrap3. by rewrite Hn, Hp'.
Qed.

Lemma _2d_vectorized_run :
  call "pytensor" h
  = (Ok [zero_profit_vectorized output output_price f p;
         demand_vectorized output f s], h).
Proof. unwrap3. reflexivity. Qed.

Lemma _2d_summation_run core_dim batch_dim t labels :
  iter_of h dims = Some [core_dim; batch_dim] →
  first_free_letter coords t → coords !! batch_dim = Some labels →
  call "numba" h
  = (Ok [zero_profit_summation output output_price
           (swapped p core_dim batch_dim) (transposed f core_dim batch_dim t)
           batch_dim (Z.of_nat (length labels) - 1);
         demand_summation f s (swapped output core_dim batch_dim)], h).
Proof.
  intros Hd Ht Hl. unwrap3. cbn [String.eqb Ascii.eqb Bool.eqb].
  eapply run_bind; [by apply iter_of_run|].
  cbv beta iota.
  eapply run_bind; [reflexivity|].
  eapply run_bind; [by apply _T_run|].
  eapply run_bind; [by apply dict_getitem_run|].
  reflexivity.
Qed.

End leontief_2d_run.

Lemma two_dims_not_one h dims core_dim batch_dim :
  two_dims h dims core_dim batch_dim → not_one_dim h dims.
Proof. intros (a & -> & Ha). by exists a, [core_dim; batch_dim]. Qed.



(** C2 (as amended): a 2-D [leontief] call with the summation backend returns
    the zero-profit equation
    [output_price * output = Sum(swap(factor_prices) * T(factors), (batch_dim, 0, len(coords[batch_dim]) - 1))]
    and the factor demand [factors = factor_shares * swap(output)], where
    [swap(x)] is the text [x.subs({core_dim:batch_dim})]: the substitution is
    written after the expression for the symbolic backend to carry out, and
    no occurrence is replaced inside [x]. *)
Theorem leontief_2d_summation (h : store) factors factor_prices factor_shares
    dims output output_price (coords : gmap string (list string))
    f p s core_dim batch_dim t labels :
  single h factors f → len_of h factors = Some 1 →
  single h factor_prices p → single h factor_shares s →
  two_dims h dims core_dim batch_dim →
  coords !! batch_dim = Some labels → first_free_letter coords t →
  ∃ k, leontief factors factor_prices output output_price factor_shares dims
         coords "numba" h
       = (Ok [zero_profit_summation output output_price
                (p +:+ ".subs({" +:+ core_dim +:+ ":" +:+ batch_dim +:+ "})")
                (transposed f core_dim batch_dim t)
                batch_dim (Z.of_nat (length labels) - 1);
              demand_summation f s
                (output +:+ ".subs({" +:+ core_dim +:+ ":" +:+ batch_dim +:+ "})")],
          h ++ k).
Proof.
  intros Hf Hlen Hp Hs Hd Hl Ht.
  destruct (leontief_2d_run h factors factor_prices factor_shares dims output
              output_price "numba" coords 1) as [k Hk];
    [by eapply singles_lengths_match|done|by eapply two_dims_not_one|done|].
  exists k. rewrite Hk.
  eapply _2d_summation_run; try done; try by apply single_old.
  destruct Hd as (a & -> & Ha). by apply lookup_old.
Qed.

Lemma leontief_2d_summation_witness :
  ∃ k, leontief (VStr "X") (VStr "P") "Y" "P_Y" (VStr "phi") (VList 0)
         {["i" := ["A"; "B"]; "j" := ["A"; "B"]]} "numba" [["i"; "j"]]
       = (Ok ["P_Y * Y = Sum(P.subs({i:j}) * X.subs([(i, a), (j, i), (a, j)]), (j, 0, 1))";
              "X = phi * Y.subs({i:j})"], [["i"; "j"]] ++ k).
Proof.
  refine (leontief_2d_summation [["i"; "j"]] (VStr "X") (VStr "P") (VStr "phi")
            (VList 0) "Y" "P_Y" {["i" := ["A"; "B"]; "j" := ["A"; "B"]]}
            "X" "P" "phi" "i" "j" "a" ["A"; "B"]
            eq_refl eq_refl eq_refl eq_refl _ eq_refl _).
  - by exists 0.
  - exists 0. split; [done|]. split; [by refine (bool_decide_unpack _ _)|lia].
Defined.

(** C2 as stated fails: with the axis swap read as the textual substitution
    of [core_dim] by [batch_dim] inside the expression, the price ["P"] and
    the output ["Y"] would stay as they are; the call writes
    ["P.subs({i:j})"] and ["Y.subs({i:j})"]. *)
Lemma leontief_2d_summation_counterexample :
  ¬ ∃ h',
      leontief (VStr "X") (VStr "P") "Y" "P_Y" (VStr "phi") (VList 0)
        {["i" := ["A"; "B"]; "j" := ["A"; "B"]]} "numba" [["i"; "j"]]
      = (Ok [zero_profit_summation "Y" "P_Y" (replace "i" "j" "P")
               (transposed "X" "i" "j" "a") "j" (Z.of_nat 2 - 1);
             demand_summation "X" "phi" (replace "i" "j" "Y")], h').
Proof. intros [h' Hrun]. vm_compute in Hrun. discriminate Hrun. Qed.

(** C5 (as amended): with a backend other than the two supported ones,
    [dixit_stiglitz] raises the unsupported-backend error once its arguments
    pass the single-factor validation and the dimension is a key of [coords],
    and [leontief] raises it on the 2-D path once the length and cardinality
    checks pass.  The 1-D path of [leontief] writes no aggregation and never
    looks at the backend: it returns its equations whatever the backend is. *)
Theorem unsupported_backend_raised (h : store) backend :
  ¬ supported backend →
  (∀ factors factor_prices factor_shares TFP output output_price epsilon dims
     (coords : gmap string (list string)) f p share labels,
     single h factors f → single h factor_prices p →
     single_opt h factor_shares share → coords !! dims = Some labels →
     dixit_stiglitz factors factor_prices output output_price epsilon dims
       coords backend TFP factor_shares h
     = (Raise (unsupported_backend backend), h))
  ∧ (∀ factors factor_prices factor_shares dims output output_price
       (coords : gmap string (list string)) f p s,
       single h factors f → len_of h factors = Some 1 →
       single h factor_prices p → single h factor_shares s →
       not_one_dim h dims →
       ∃ k, leontief factors factor_prices output output_price factor_shares
              dims coords backend h
            = (Raise (unsupported_backend backend), h ++ k))
  ∧ (∀ factors factor_prices factor_shares dims output output_price
       (coords : gmap string (list string)) n fs ps ss,
       lengths_match h factors factor_prices factor_shares →
       len_of h factors = Some n → n ≠ 1 → one_dim h dims →
       iter_of h factors = Some fs → iter_of h factor_prices = Some ps →
       iter_of h factor_shares = Some ss →
       ∃ k, leontief factors factor_prices output output_price factor_shares
              dims coords backend h
            = (Ok (leontief_zero_profit output output_price
                     ((λ '(f, p), leontief_cost f p) <$> zip fs ps)
                   :: ((λ '(f, s), leontief_demand output f s) <$> zip fs ss)),
               h ++ k)).
Proof.
  intros Hb. split; [|split].
  - intros. by eapply ds_unsupported_run.
  - intros factors factor_prices factor_shares dims output output_price coords
      f p s Hf Hlen Hp Hs Hd.
    destruct (leontief_2d_run h factors factor_prices factor_shares dims output
                output_price backend coords 1) as [k Hk];
      [by eapply singles_lengths_match|done|done|done|].
    exists k. rewrite Hk. eapply _2d_unsupported_run; try done; by apply single_old.
  - intros factors factor_prices factor_shares dims output output_price coords
      n fs ps ss Hmatch Hlen Hn Hd Hfs Hps Hss.
    destruct (leontief_1d_run h factors factor_prices factor_shares dims output
                output_price backend coords n) as [k Hk]; try done.
    exists k. rewrite Hk. by apply _1d_leontief_run.
Qed.

Lemma unsupported_backend_raised_witness :
  dixit_stiglitz (VStr "X") (VStr "P_X") "Y" "P_Y" "eps" "i"
    {["i" := ["A"; "B"]]} "jax" None None []
  = (Raise (ValueError "backend must be one of 'numba' or 'pytensor', found jax"), []).
Proof.
  refine (proj1 (unsupported_backend_raised [] "jax" _) (VStr "X") (VStr "P_X")
            None None "Y" "P_Y" "eps" "i" {["i" := ["A"; "B"]]} "X" "P_X" None
            ["A"; "B"] eq_refl eq_refl I eq_refl).
  by intros [|].
Defined.

(** C5 as stated fails on the 1-D path of [leontief]: with the backend
    ["jax"] the call raises nothing and returns its three equations. *)
Lemma unsupported_backend_counterexample :
  ¬ supported "jax"
  ∧ (∃ h', leontief (VList 0) (VList 1) "Y" "P_Y" (VList 2) (VStr "i")
             {["i" := ["A"; "B"]]} "jax" [["K"; "L"]; ["r"; "w"]; ["a"; "b"]]
           = (Ok ["P_Y * Y = r * K + w * L"; "K = Y * a"; "L = Y * b"], h'))
  ∧ ¬ ∃ h', leontief (VList 0) (VList 1) "Y" "P_Y" (VList 2) (VStr "i")
              {["i" := ["A"; "B"]]} "jax" [["K"; "L"]; ["r"; "w"]; ["a"; "b"]]
            = (Raise (unsupported_backend "jax"), h').
Proof.
  split; [by intros [|]|]. split.
  - eexists. vm_compute. reflexivity.
  - intros [h' Hrun]. vm_compute in Hrun. discriminate Hrun.
Qed.

(** ** [itertools.product] *)

Lemma product_step_cartesian {A} (acc : list (list A)) pool (C : list (list A)) :
  (x ← acc; y ← pool; [x ++ [y]]) ≫= (λ a, app a <$> C)
  = a ← acc; app a <$> (y ← pool; cons y <$> C).
Proof.
  induction acc as [|x acc IH]; [done|].
  rewrite !bind_cons, bind_app, IH. f_equal. clear IH.
  induction pool as [|y pool IH]; [done|].
  rewrite !bind_cons, bind_app, fmap_app, IH. f_equal.
  rewrite bind_singleton, <- list_fmap_compose.
  apply list_fmap_ext. intros _ t _. simpl. by rewrite <- app_assoc.
Qed.

Lemma product_foldl {A} (acc : list (list A)) pools :
  foldl (λ result pool, x ← result; y ← pool; [x ++ [y]]) acc pools
  = a ← acc; app a <$> cartesian pools.
Proof.
  revert acc. induction pools as [|pool pools IH]; intros acc; simpl.
  - induction acc as [|a acc IHacc]; [done|].
    rewrite bind_cons, <- IHacc. simpl. by rewrite app_nil_r.
  - rewrite IH. apply product_step_cartesian.
Qed.

(** [itertools.product] enumerates the Cartesian product with the last pool
    varying fastest. *)
Lemma product_cartesian {A} (pools : list (list A)) :
  product pools = cartesian pools.
Proof.
  unfold product. rewrite product_foldl, bind_singleton. apply list_fmap_id.
Qed.

(** ** [unpack_string_inputs] *)

Lemma mapM_cons {A B} (f : A → M B) x l :
  mapM f (x :: l) = (y ← f x; k ← mapM f l; mret (y :: k)).
Proof. done. Qed.

Lemma mapM_unwrap_run h inputs names :
  Forall2 (single h) inputs names →
  mapM unwrap_singleton_list inputs h = (Ok (VStr <$> names), h).
Proof.
  induction 1 as [|x s inputs names Hx _ IH]; [done|]. rewrite mapM_cons.
  eapply run_bind; [by apply unwrap_single_run|].
  eapply run_bind; [done|]. done.
Qed.

Lemma forallb_isinstance_list_str names :
  names ≠ [] → forallb isinstance_list (VStr <$> names) = false.
Proof. by destruct names. Qed.

Lemma mapM_dict_getitem_run h (coords : gmap string (list string)) keys labels :
  Forall2 (λ key l, coords !! key = Some l) keys labels →
  mapM (dict_getitem coords) keys h = (Ok labels, h).
Proof.
  induction 1 as [|key l keys labels Hkey _ IH]; [done|]. rewrite mapM_cons.
  eapply run_bind; [by apply dict_getitem_run|].
  eapply run_bind; [done|]. done.
Qed.

Lemma forallb_keys (coords : gmap string (list string)) keys labels :
  Forall2 (λ key l, coords !! key = Some l) keys labels →
  forallb (λ key, bool_decide (key ∈ dom coords)) keys = true.
Proof.
  induction 1 as [|key l keys labels Hkey _ IH]; [done|]. simpl.
  rewrite IH, bool_decide_eq_true_2; [done|]. apply elem_of_dom. by eexists.
Qed.

Lemma mapM_alloc_run {A} h (l : list A) :
  mapM (λ _, alloc []) l h
  = (Ok (VList <$> seq (length h) (length l)), h ++ replicate (length l) []).
Proof.
  revert h. induction l as [|x l IH]; intros h.
  - by rewrite app_nil_r.
  - rewrite mapM_cons. eapply run_bind; [reflexivity|].
    eapply run_bind; [apply IH|]. cbv beta.
    rewrite length_app, Nat.add_1_r, <- app_assoc. done.
Qed.

Lemma join_items_str i l h : join_items i (VStr <$> l) h = (Ok l, h).
Proof.
  revert i. induction l as [|s l IH]; intros i; [done|]. simpl.
  eapply run_bind; [apply IH|done].
Qed.

Lemma str_join_name_run name labels h :
  str_join "_" (VStr name :: (VStr <$> labels)) h
  = (Ok (generated_name name labels), h).
Proof.
  unfold str_join. eapply run_bind; [apply (join_items_str 0 (name :: labels))|done].
Qed.

Lemma insert_middle {A} (h pre : list A) c c' cs :
  <[length h + length pre := c']> (h ++ pre ++ c :: cs) = h ++ pre ++ c' :: cs.
Proof.
  rewrite !(app_assoc h pre), <- length_app.
  by rewrite <- (Nat.add_0_r (length (h ++ pre))), insert_app_r.
Qed.

Section unpack_loops.
Context (h : store) (n : nat) (tup : list string).

Let outputs : list value := VList <$> seq (length h) n.

Let body : nat * value → M unit := λ '(i, input),
  name ← str_join "_" (input :: (VStr <$> tup));
  match outputs !! i with
  | Some out => append_to out name
  | None => raise (IndexError "list index out of range")
  end.

Lemma unpack_inner_run names pre cs :
  length pre + length names = n → length cs = length names →
  for_each (zip (seq (length pre) (length names)) (VStr <$> names)) body
    (h ++ pre ++ cs)
  = (Ok (), h ++ pre
            ++ zip_with (λ name c, c ++ [generated_name name tup]) names cs).
Proof.
  revert pre cs. induction names as [|name names IH]; intros pre [|c cs] Hn Hcs;
    try done.
  cbn [length seq fmap list_fmap zip zip_with for_each].
  eapply run_bind.
  { eapply run_bind; [apply str_join_name_run|]. cbv beta. unfold outputs.
    rewrite list_lookup_fmap, lookup_seq_lt by (simpl in Hn; lia).
    cbn [fmap option_fmap option_map].
    apply append_run. rewrite app_assoc.
    apply list_lookup_middle. by rewrite length_app. }
  cbv beta. rewrite insert_middle.
  specialize (IH (pre ++ [c ++ [generated_name name tup]]) cs).
  rewrite length_app, Nat.add_1_r, <- !app_assoc in IH.
  apply IH; simpl in *; lia.
Qed.
End unpack_loops.

Lemma zip_with_append_step {A B} (g : A → B) (g' : A → list B) names
    (cs : list (list B)) :
  zip_with (λ name c, c ++ g' name) names
    (zip_with (λ name c, c ++ [g name]) names cs)
  = zip_with (λ name c, c ++ g name :: g' name) names cs.
Proof.
  revert cs. induction names as [|name names IH]; intros [|c cs]; try done.
  simpl. by rewrite IH, <- app_assoc.
Qed.

Lemma unpack_outer_run h names tuples cs :
  length cs = length names →
  for_each tuples (λ labels,
    let label_list := labels in
    for_each (enumerate (VStr <$> names)) (λ '(i, input),
      name ← str_join "_" (input :: (VStr <$> label_list));
      match (VList <$> seq (length h) (length names)) !! i with
      | Some out => append_to out name
      | None => raise (IndexError "list index out of range")
      end)) (h ++ cs)
  = (Ok (), h ++ zip_with (λ name c, c ++ (generated_name name <$> tuples))
                   names cs).
Proof.
  revert cs. induction tuples as [|tup tuples IH]; intros cs Hcs.
  - cbn [for_each fmap list_fmap]. f_equal. f_equal.
    clear -Hcs. revert cs Hcs.
    induction names as [|name names IH]; intros [|c cs] Hcs; try done.
    simpl. rewrite app_nil_r, <- IH; [done|]. simpl in Hcs. lia.
  - cbn [for_each]. eapply run_bind.
    { cbv zeta. unfold enumerate. rewrite length_fmap.
      apply (unpack_inner_run h (length names) tup names [] cs); [done|done]. }
    cbv beta. cbn [app]. rewrite IH by (by rewrite length_zip_with, Hcs, Nat.min_id).
    by rewrite zip_with_append_step.
Qed.

(** X21: when every input is a bare string after the unwrapping of
    singleton lists, and [dims] and [coords] are supplied with every
    dimension a key of [coords], [unpack_string_inputs] returns one new list
    per input that holds, for each tuple of the Cartesian product of
    [coords[dim]] over [dims] (in the order of [dims], the last dimension
    varying fastest), the base name and the labels of the tuple joined with
    underscores. *)
Theorem unpack_string_inputs_names (h : store) inputs names dims keys
    (coords : gmap string (list string)) labels :
  Forall2 (single h) inputs names →
  iter_of h dims = Some keys →
  Forall2 (λ key l, coords !! key = Some l) keys labels →
  unpack_string_inputs inputs (Some dims) (Some coords) h
  = (Ok (VList <$> seq (length h) (length names)),
     h ++ ((λ name, generated_name name <$> cartesian labels) <$> names)).
Proof.
  intros Hin Hdims Hkeys. unfold unpack_string_inputs.
  eapply run_bind; [by apply mapM_unwrap_run|]. cbv beta.
  destruct (decide (names = [])) as [->|Hne].
  { simpl. by rewrite app_nil_r. }
  rewrite forallb_isinstance_list_str by done.
  eapply run_bind; [by apply iter_of_run|]. cbv beta.
  rewrite (forallb_keys _ _ _ Hkeys). cbn [negb].
  eapply run_bind; [by apply iter_of_run|].
  eapply run_bind; [by apply mapM_dict_getitem_run|].
  eapply run_bind; [apply mapM_alloc_run|]. cbv beta.
  rewrite length_fmap, product_cartesian.
  eapply run_bind; [apply unpack_outer_run; by rewrite length_replicate|].
  cbv beta. rewrite zip_with_replicate_r_eq by done. done.
Qed.

Lemma unpack_string_inputs_names_witness :
  unpack_string_inputs [VStr "foo"] (Some (VList 0))
    (Some {["i" := ["A"; "B"]; "j" := ["X"; "Y"]]}) [["i"; "j"]]
  = (Ok [VList 1],
     [["i"; "j"]; ["foo_A_X"; "foo_A_Y"; "foo_B_X"; "foo_B_Y"]]).
Proof.
  refine (unpack_string_inputs_names [["i"; "j"]] [VStr "foo"] ["foo"]
            (VList 0) ["i"; "j"] {["i" := ["A"; "B"]; "j" := ["X"; "Y"]]}
            [["A"; "B"]; ["X"; "Y"]] _ eq_refl _).
  - by repeat constructor.
  - by repeat constructor.
Defined.

(** C1 (the code does not have the property): with the bare name ["foo"]
    next to the two-item list [["a", "b"]], with [dims] and [coords] supplied
    and the dimension a key of [coords], an input is a bare string, yet no
    name is generated for any input: the call raises a [TypeError] when it
    joins the list input with the labels of the first tuple. *)
Theorem unpack_string_inputs_mixed_inputs :
  let call :=
    unpack_string_inputs [VStr "foo"; VList 1] (Some (VList 0))
      (Some {["i" := ["A"; "B"]]}) in
  let h := [["i"]; ["a"; "b"]] in
  (∃ h', call h
         = (Raise (TypeError "sequence item 0: expected str instance, list found"),
            h'))
  ∧ ¬ ∃ outputs h', call h = (Ok outputs, h').
Proof.
  split.
  - eexists. vm_compute. reflexivity.
  - intros (outputs & h' & Hrun). vm_compute in Hrun. discriminate Hrun.
Qed.

(** * Further properties of the module *)

(** ** Frame rules *)

#[global] Instance grown_refl : Reflexive grown.
Proof. intros h. exists []. by rewrite app_nil_r. Qed.

#[global] Instance grown_trans : Transitive grown.
Proof. intros h1 h2 h3 [k1 ->] [k2 ->]. exists (k1 ++ k2). by rewrite app_assoc. Qed.

#[global] Instance same_except_refl a : Reflexive (same_except a).
Proof. by intros h b l. Qed.

#[global] Instance same_except_trans a : Transitive (same_except a).
Proof. intros h1 h2 h3 H12 H23 b l Hb Hl. by apply H23, H12. Qed.

Lemma grown_same_except a h h' : grown h h' → same_except a h h'.
Proof. intros [k ->] b l _ Hl. by apply lookup_old. Qed.

Section preserves.
Context (R : relation store) `{!Reflexive R, !Transitive R}.

Lemma preserves_ret {A} (x : A) : preserves R (mret x).
Proof. intros h. simpl. reflexivity. Qed.

Lemma preserves_raise {A} e : preserves R (raise e : M A).
Proof. intros h. simpl. reflexivity. Qed.

Lemma preserves_bind {A B} (m : M A) (f : A → M B) :
  preserves R m → (∀ x, preserves R (f x)) → preserves R (m ≫= f).
Proof.
  intros Hm Hf h. unfold mbind, M_bind. specialize (Hm h).
  destruct (m h) as [[x|e] h1]; simpl in *; [|done].
  etrans; [done|]. apply Hf.
Qed.

Lemma preserves_deref a : preserves R (deref a).
Proof. intros h. unfold deref. destruct (h !! a); simpl; reflexivity. Qed.

Lemma preserves_for_each {A} (l : list A) body :
  (∀ x, preserves R (body x)) → preserves R (for_each l body).
Proof.
  intros Hbody. induction l as [|x l IH]; simpl.
  - apply preserves_ret.
  - apply preserves_bind; [done|]. by intros _.
Qed.

Lemma preserves_mapM {A B} (f : A → M B) l :
  (∀ x, preserves R (f x)) → preserves R (mapM f l).
Proof.
  intros Hf. induction l as [|x l IH]; [apply preserves_ret|].
  rewrite mapM_cons. apply preserves_bind; [done|]. intros y.
  apply preserves_bind; [done|]. intros k. apply preserves_ret.
Qed.
End preserves.

Lemma preserves_alloc l : preserves grown (alloc l).
Proof. intros h. by exists [l]. Qed.

Lemma preserves_weaken {A} (R R' : relation store) (m : M A) :
  (∀ h h', R h h' → R' h h') → preserves R m → preserves R' m.
Proof. intros HR Hm h. apply HR, Hm. Qed.

Lemma bind_snd {A B} (m : M A) (f : A → M B) h :
  ((m ≫= f) h).2
  = match m h with (Ok x, h1) => (f x h1).2 | (Raise _, h1) => h1 end.
Proof. unfold mbind, M_bind. by destruct (m h) as [[x|e] h1]. Qed.


(** Breaks a computation into its primitives. *)
Ltac frame_step :=
  lazymatch goal with
  | |- preserves _ (mret _) => apply preserves_ret; apply _
  | |- preserves _ (raise _) => apply preserves_raise; apply _
  | |- preserves _ (_ ≫= _) => apply preserves_bind; [apply _| |intros ?]
  | |- preserves _ (deref _) => apply preserves_deref; apply _
  | |- preserves grown (alloc _) => apply preserves_alloc
  | |- preserves _ (for_each _ _) => apply preserves_for_each; [apply _|apply _|intros ?]
  | |- preserves _ (mapM _ _) => apply preserves_mapM; [apply _|apply _|intros ?]
  | |- preserves _ (if ?b then _ else _) => destruct b
  | |- preserves _ (match ?x with _ => _ end) => destruct x
  | |- preserves _ (let _ := _ in _) => cbv zeta
  | |- preserves _ (len _) => unfold len
  | |- preserves _ (iter _) => unfold iter
  | |- preserves _ (str _) => unfold str
  | |- preserves _ (str_opt _) => unfold str_opt
  | |- preserves _ (getitem _ _) => unfold getitem
  | |- preserves _ (dict_getitem _ _) => unfold dict_getitem
  | |- preserves _ (unwrap_singleton_list _) => unfold unwrap_singleton_list
  | |- preserves _ (unwrap_singleton_opt _) => unfold unwrap_singleton_opt
  | |- preserves _ (at_least_list _) => unfold at_least_list
  | |- preserves _ (str_join _ _) => unfold str_join
  end.

Ltac frame := repeat frame_step.

Lemma preserves_join_items R `{!Reflexive R, !Transitive R} i items :
  preserves R (join_items i items).
Proof.
  revert i. induction items as [|[s|a] items IH]; intros i; simpl.
  - frame.
  - apply preserves_bind; [apply _|apply IH|]. intros ?. frame.
  - frame.
Qed.

Lemma dixit_stiglitz_preserves factors factor_prices output output_price
    epsilon dims coords backend TFP factor_shares :
  preserves eq (dixit_stiglitz factors factor_prices output output_price
                  epsilon dims coords backend TFP factor_shares).
Proof.
  unfold dixit_stiglitz. cbn [zip zip_with for_each]. frame.
Qed.

(** X1: [dixit_stiglitz] never allocates a list and never modifies one:
    whatever it returns or raises, the store is the one it was called on. *)
Theorem dixit_stiglitz_store_unchanged factors factor_prices output
    output_price epsilon dims coords backend TFP factor_shares (h : store) :
  (dixit_stiglitz factors factor_prices output output_price epsilon dims
     coords backend TFP factor_shares h).2 = h.
Proof. symmetry. apply dixit_stiglitz_preserves. Qed.

Lemma check_lengths_preserves names args :
  preserves grown (_check_pairwise_lengths_match names args).
Proof. unfold _check_pairwise_lengths_match. frame. Qed.




#[global] Instance tail_of_refl h n : Reflexive (tail_of h n).
Proof. intros s Hs. exact Hs. Qed.

#[global] Instance tail_of_trans h n : Transitive (tail_of h n).
Proof. intros s1 s2 s3 H12 H23 H1. apply H23, H12, H1. Qed.

Lemma preserves_append_tail (h : store) n i s :
  (i < n)%nat → preserves (tail_of h n) (append (length h + i) s).
Proof.
  intros Hi s0 (cs & -> & Hcs). unfold append.
  destruct (_ !! _) as [l|] eqn:Hl; simpl; [|by exists cs].
  exists (<[i := l ++ [s]]> cs). split; [by rewrite insert_app_r|].
  by rewrite length_insert.
Qed.

Lemma unpack_loops_preserves (h : store) n (inputs : list value)
    (label_prod : list (list string)) :
  preserves (tail_of h n)
    (for_each label_prod (λ labels,
       let label_list := labels in
       for_each (enumerate inputs) (λ '(i, input),
         name ← str_join "_" (input :: (VStr <$> label_list));
         match (VList <$> seq (length h) n) !! i with
         | Some out => append_to out name
         | None => raise (IndexError "list index out of range")
         end))).
Proof.
  apply preserves_for_each; [apply _..|]. intros labels. cbv zeta.
  apply preserves_for_each; [apply _..|]. intros [i input].
  apply preserves_bind; [apply _| |].
  { unfold str_join. apply preserves_bind; [apply _|apply preserves_join_items; apply _|].
    intros ?. apply preserves_ret, _. }
  intros name. destruct (_ !! i) as [out|] eqn:Hout; [|apply preserves_raise, _].
  apply list_lookup_fmap_Some in Hout as (a & -> & Ha).
  apply lookup_seq in Ha as [-> Hi]. by apply preserves_append_tail.
Qed.

Lemma preserves_eq_run {A} (m : M A) h : preserves eq m → ∃ r, m h = (r, h).
Proof. intros Hm. specialize (Hm h). destruct (m h) as [r h']. exists r. by simplify_eq/=. Qed.

Lemma mapM_at_least_list_preserves inputs : preserves grown (mapM at_least_list inputs).
Proof. frame. Qed.

(** X3: [unpack_string_inputs] modifies no list it is given: whatever it
    returns or raises, every object of the store is where it was with the
    items it had, and the store only gains new lists. *)
Theorem unpack_string_inputs_store_grows inputs dims coords (h : store) :
  ∃ k, (unpack_string_inputs inputs dims coords h).2 = h ++ k.
Proof.
  unfold unpack_string_inputs. unfold mbind at 1, M_bind at 1.
  destruct (preserves_eq_run (mapM unwrap_singleton_list inputs) h) as [r ->].
  { frame. }
  destruct r as [inputs'|e]; [|by exists []; rewrite app_nil_r].
  destruct (forallb isinstance_list inputs').
  { apply mapM_at_least_list_preserves. }
  destruct coords as [coords|], dims as [dims|];
    try apply mapM_at_least_list_preserves.
  unfold mbind at 1, M_bind at 1.
  destruct (preserves_eq_run (iter dims) h) as [r ->]; [frame|].
  destruct r as [keys|e]; [|by exists []; rewrite app_nil_r].
  destruct (negb _).
  { change (grown h ((str dims ≫= λ d, raise (KeyError ("Dimensions " +:+ d
      +:+ " not found in coords")) : M (list value)) h).2).
    apply (preserves_weaken eq); [by intros ?? <-|]. frame. }
  unfold mbind at 1, M_bind at 1.
  destruct (preserves_eq_run (iter dims) h) as [r ->]; [frame|].
  destruct r as [keys'|e]; [|by exists []; rewrite app_nil_r].
  unfold mbind at 1, M_bind at 1.
  destruct (preserves_eq_run (mapM (dict_getitem coords) keys') h) as [r ->]; [frame|].
  destruct r as [labels|e]; [|by exists []; rewrite app_nil_r].
  unfold mbind at 1, M_bind at 1. rewrite mapM_alloc_run.
  unfold mbind at 1, M_bind at 1.
  destruct (unpack_loops_preserves h (length inputs') inputs' (product labels)
              (h ++ replicate (length inputs') [])) as (cs & Hcs & _).
  { eexists. split; [done|]. by rewrite length_replicate. }
  destruct (for_each _ _ _) as [[[]|e] h']; simpl in Hcs; subst h'; by exists cs.
Qed.

Lemma preserves_append a s : preserves (same_except a) (append a s).
Proof.
  intros h. unfold append. destruct (h !! a) as [l|]; simpl; [|done].
  intros b l' Hb Hl. by rewrite list_lookup_insert_ne.
Qed.

Lemma add_second_alpha_rest_preserves a factors :
  preserves (same_except a)
    (nf ← len factors;
     na ← (if decide (nf = 2) then len (VList a) else mret 0);
     if bool_decide (nf = 2) && bool_decide (na = 1)
     then a0 ← getitem (VList a) 0;
          append_to (VList a) ("1 - " +:+ a0) ;; mret (VList a)
     else mret (VList a)).
Proof.
  frame; try apply _. cbn [append_to]. apply preserves_append.
Qed.

Lemma add_second_alpha_frame (h : store) alpha factors b l :
  alpha ≠ VList b → h !! b = Some l →
  (_add_second_alpha alpha factors h).2 !! b = Some l.
Proof.
  intros Hb Hl. unfold _add_second_alpha. rewrite bind_snd.
  destruct (preserves_eq_run
              (if negb (isinstance_list factors) then mret true
               else n ← len factors; mret (bool_decide (n ≠ 2))) h) as [r ->].
  { frame. }
  destruct r as [[]|e]; [| |done].
  - destruct alpha as [s|a]; simpl; [by apply lookup_old|done].
  - destruct alpha as [s|a].
    + rewrite bind_snd. cbn [at_least_list alloc].
      apply (add_second_alpha_rest_preserves (length h) factors (h ++ [[s]])).
      * apply lookup_lt_Some in Hl. lia.
      * by apply lookup_old.
    + rewrite bind_snd. cbn [at_least_list].
      apply (add_second_alpha_rest_preserves a factors h); [congruence|done].
Qed.

(** X4: the one list [CES] can modify is the one given as [factor_shares]:
    whatever the call returns or raises, every other object of the store is
    where it was with the items it had. *)
Theorem CES_keeps_other_lists (h : store) factors factor_prices output
    output_price TFP factor_shares epsilon b l :
  factor_shares ≠ VList b → h !! b = Some l →
  (CES factors factor_prices output output_price TFP factor_shares epsilon h).2
    !! b = Some l.
Proof.
  intros Hb Hl. unfold CES. rewrite bind_snd.
  pose proof (add_second_alpha_frame h factor_shares factors b l Hb Hl) as Hl1.
  destruct (_add_second_alpha factor_shares factors h) as [[shares|e] h1];
    simpl in Hl1; [|done].
  rewrite bind_snd.
  destruct (check_lengths_preserves ["factors"; "factor_prices"; "factor_shares"]
              [factors; factor_prices; shares] h1) as [k Hk].
  destruct (_check_pairwise_lengths_match _ _ h1) as [[[]|e] h2]; simpl in Hk;
    subst h2; [|by apply lookup_old].
  assert (∀ {A} (m : M A), preserves grown m → (m (h1 ++ k)).2 !! b = Some l) as Hgrow.
  { intros A m Hm. destruct (Hm (h1 ++ k)) as [k' ->]. by do 2 apply lookup_old. }
  apply Hgrow. frame.
Qed.

Lemma CES_keeps_other_lists_witness :
  (CES (VList 0) (VList 1) "Y" "P" "A" (VList 2) "eps"
     [["K"; "L"]; ["r"; "w"]; ["alpha"]]).2 !! 0 = Some ["K"; "L"].
Proof.
  refine (CES_keeps_other_lists [["K"; "L"]; ["r"; "w"]; ["alpha"]] (VList 0)
            (VList 1) "Y" "P" "A" (VList 2) "eps" 0 ["K"; "L"] _ eq_refl).
  discriminate.
Defined.

(** ** The length check *)

Lemma check_lengths_three (h : store) n1 n2 n3 x y z lx ly lz :
  as_list h x = Some lx → as_list h y = Some ly → as_list h z = Some lz →
  ∃ k, _check_pairwise_lengths_match [n1; n2; n3] [x; y; z] h
       = (if decide (length lx ≠ length ly) then Raise (length_mismatch n1 n2)
          else if decide (length lx ≠ length lz) then Raise (length_mismatch n1 n3)
          else Ok (), h ++ k).
Proof.
  intros Hx Hy Hz.
  destruct (decide (length lx ≠ length ly)) as [Hxy|Hxy];
    [|destruct (decide (length lx ≠ length lz)) as [Hxz|Hxz]].
  3: { apply (check_lengths_ok h n1 n2 n3 x y z lx ly lz); (done || lia). }
  all: unfold _check_pairwise_lengths_match; cbn [mapM];
    destruct x as [sx|ax], y as [sy|ay], z as [sz|az]; simpl in Hx, Hy, Hz;
    simplify_eq; try (exfalso; simpl in *; lia); eexists;
    (eapply run_bind; [mrun|]);
    cbn [combinations2 fmap list_fmap app zip zip_with for_each fst snd];
    (etrans; [mrun|]); rewrite <- ?app_assoc; try reflexivity;
    exact (f_equal (pair (Raise _)) (eq_sym (app_nil_r h))).
Qed.

(** X5: on three arguments, each taken as a list (a bare string counting as
    one item), [_check_pairwise_lengths_match] passes exactly when the three
    lengths agree.  Otherwise it raises the error that names the first
    argument and the second when these two differ in length, and the first
    and the third when only the third differs; the pair of the second and
    third names is never the one reported. *)
Theorem check_pairwise_lengths_report (h : store) n1 n2 n3 x y z lx ly lz :
  as_list h x = Some lx → as_list h y = Some ly → as_list h z = Some lz →
  let check := _check_pairwise_lengths_match [n1; n2; n3] [x; y; z] in
  ((∃ h', check h = (Ok (), h'))
     ↔ length lx = length ly ∧ length lx = length lz)
  ∧ (length lx ≠ length ly →
       ∃ h', check h = (Raise (length_mismatch n1 n2), h'))
  ∧ (length lx = length ly → length lx ≠ length lz →
       ∃ h', check h = (Raise (length_mismatch n1 n3), h'))
  ∧ (∀ e h', check h = (Raise e, h') →
       e = length_mismatch n1 n2 ∨ e = length_mismatch n1 n3).
Proof.
  intros Hx Hy Hz check.
  destruct (check_lengths_three h n1 n2 n3 x y z lx ly lz Hx Hy Hz) as [k Hk].
  fold check in Hk. rewrite Hk. clear Hk.
  destruct (decide (length lx ≠ length ly)) as [Hxy|Hxy];
    [|destruct (decide (length lx ≠ length lz)) as [Hxz|Hxz]];
    (split; [split; [intros [h' [=]]; lia|intros [? ?]; (lia || by eexists)]|]);
    (split; [intros ?; (lia || by eexists)|]);
    (split; [intros ? ?; (lia || by eexists)|]);
    intros e h' [= <- _]; auto.
Qed.

Lemma check_pairwise_lengths_report_witness :
  ∃ h', _check_pairwise_lengths_match ["factors"; "factor_prices"; "factor_shares"]
          [VList 0; VStr "r"; VStr "alpha"] [["K"; "L"]]
        = (Raise (ValueError "Lengths of factors and factor_prices do not match"), h').
Proof.
  refine (proj1 (proj2 (check_pairwise_lengths_report [["K"; "L"]] "factors"
            "factor_prices" "factor_shares" (VList 0) (VStr "r") (VStr "alpha")
            ["K"; "L"] ["r"] ["alpha"] eq_refl eq_refl eq_refl)) _).
  simpl. lia.
Defined.

(** X6: [leontief] validates the lengths before anything else: whatever
    [dims], [coords] and [backend] are, a call whose factors and prices differ
    in length raises the length error naming [factors] and [factor_prices],
    and one whose shares alone differ raises the error naming [factors] and
    [factor_shares]. *)
Theorem leontief_length_mismatch (h : store) factors factor_prices factor_shares
    dims output output_price coords backend lx ly lz :
  as_list h factors = Some lx → as_list h factor_prices = Some ly →
  as_list h factor_shares = Some lz →
  let call := leontief factors factor_prices output output_price factor_shares
                dims coords backend in
  (length lx ≠ length ly →
     ∃ k, call h = (Raise (length_mismatch "factors" "factor_prices"), h ++ k))
  ∧ (length lx = length ly → length lx ≠ length lz →
     ∃ k, call h = (Raise (length_mismatch "factors" "factor_shares"), h ++ k)).
Proof.
  intros Hx Hy Hz call.
  destruct (check_lengths_three h "factors" "factor_prices" "factor_shares"
              _ _ _ lx ly lz Hx Hy Hz) as [k Hk].
  split; [intros Hxy|intros Hxy Hxz]; exists k; unfold call, leontief;
    eapply bind_raise; rewrite Hk.
  - by rewrite decide_True.
  - rewrite decide_False by lia. by rewrite decide_True.
Qed.

Lemma leontief_length_mismatch_witness :
  ∃ k, leontief (VList 0) (VList 1) "Y" "P_Y" (VList 1) (VStr "i") ∅ "jax"
         [["K"; "L"]; ["r"]]
       = (Raise (ValueError "Lengths of factors and factor_prices do not match"),
          [["K"; "L"]; ["r"]] ++ k).
Proof.
  refine (proj1 (leontief_length_mismatch [["K"; "L"]; ["r"]] (VList 0) (VList 1)
            (VList 1) (VStr "i") "Y" "P_Y" ∅ "jax" ["K"; "L"] ["r"] ["r"]
            eq_refl eq_refl eq_refl) _).
  simpl. lia.
Defined.

(** ** [CES] with the shares given as one string *)

Lemma insert_fresh {A} (h : list A) x y : <[length h := y]> (h ++ [x]) = h ++ [y].
Proof. by rewrite <- (Nat.add_0_r (length h)), insert_app_r. Qed.

Lemma add_second_alpha_str (h : store) s af fs :
  h !! af = Some fs →
  _add_second_alpha (VStr s) (VList af) h
  = (Ok (VList (length h)),
     h ++ [if decide (length fs = 2) then [s; "1 - " +:+ s] else [s]]).
Proof.
  intros Hf. destruct (decide (length fs = 2)) as [Htwo|Hnot].
  - unfold _add_second_alpha; cbn [isinstance_list negb].
    etrans; [mrun|]. by rewrite insert_fresh.
  - rewrite add_second_alpha_other; [done|by eexists|].
    intros (? & ? & [= <-] & ? & ?). congruence.
Qed.

Section CES_one_share_string.
Context (h : store) (af ap : addr) (fs ps : list string).
Context (output output_price TFP s epsilon : string).
Hypothesis Hf : h !! af = Some fs.
Hypothesis Hp : h !! ap = Some ps.

Let call := CES (VList af) (VList ap) output output_price TFP (VStr s) epsilon.
Let shares := if decide (length fs = 2) then [s; "1 - " +:+ s] else [s].

Lemma CES_one_share_string_check :
  ∃ k, (_check_pairwise_lengths_match
          ["factors"; "factor_prices"; "factor_shares"]
          [VList af; VList ap; VList (length h)]) (h ++ [shares])
       = (if decide (length fs ≠ length ps)
          then Raise (length_mismatch "factors" "factor_prices")
          else if decide (length fs ≠ length shares)
          then Raise (length_mismatch "factors" "factor_shares")
          else Ok (), h ++ [shares] ++ k).
Proof.
  destruct (check_lengths_three (h ++ [shares]) "factors" "factor_prices"
              "factor_shares" (VList af) (VList ap) (VList (length h))
              fs ps shares) as [k Hk].
  - by apply lookup_old.
  - by apply lookup_old.
  - apply lookup_fresh.
  - exists k. by rewrite app_assoc.
Qed.

Lemma CES_one_share_string_raise :
  (length fs ≠ length ps →
     ∃ h', call h = (Raise (length_mismatch "factors" "factor_prices"), h'))
  ∧ (length fs = length ps → length fs ≠ 1 → length fs ≠ 2 →
     ∃ h', call h = (Raise (length_mismatch "factors" "factor_shares"), h')).
Proof.
  destruct CES_one_share_string_check as [k Hk].
  split; [intros Hfp|intros Hfp H1 H2]; eexists; unfold call, CES;
    (eapply run_bind; [by apply add_second_alpha_str|]); fold shares;
    eapply bind_raise; rewrite Hk.
  - by rewrite decide_True.
  - rewrite decide_False by lia. rewrite decide_True; [done|].
    unfold shares. destruct (decide (length fs = 2)); simpl; lia.
Qed.

Lemma CES_one_share_string_run :
  length fs = length ps → length fs = length shares →
  ∃ k, call h
       = (Ok (ces_production output TFP epsilon
                ((λ '(f, s), ces_term epsilon f s) <$> zip fs shares)
              :: ((λ '(f, (p, s)), ces_demand output output_price TFP epsilon f p s)
                  <$> zip fs (zip ps shares))), h ++ k).
Proof.
  intros Hfp Hfs. destruct CES_one_share_string_check as [k Hk].
  exists ([shares] ++ k). unfold call, CES.
  eapply run_bind; [by apply add_second_alpha_str|]. fold shares.
  eapply run_bind.
  { rewrite Hk. rewrite decide_False by lia. by rewrite decide_False by lia. }
  assert ((h ++ [shares] ++ k) !! af = Some fs) by by apply lookup_old.
  assert ((h ++ [shares] ++ k) !! ap = Some ps) by by apply lookup_old.
  assert ((h ++ [shares] ++ k) !! length h = Some shares).
  { rewrite app_assoc. apply lookup_old, lookup_fresh. }
  etrans; [mrun|reflexivity].
Qed.
End CES_one_share_string.

(** X7: [CES] with two factors and two prices given as lists and the share
    given as one string [s] completes the shares to [s] and [1 - s]: it
    returns the production equation over the terms
    [(s) * f1 ** ...] and [(1 - s) * f2 ** ...], then the demand of the first
    factor with the share [s] and the demand of the second with [1 - s]. *)
Theorem CES_two_factors_one_share (h : store) af ap f1 f2 p1 p2
    output output_price TFP s epsilon :
  h !! af = Some [f1; f2] → h !! ap = Some [p1; p2] →
  ∃ k, CES (VList af) (VList ap) output output_price TFP (VStr s) epsilon h
       = (Ok [ces_production output TFP epsilon
                [ces_term epsilon f1 s; ces_term epsilon f2 ("1 - " +:+ s)];
              ces_demand output output_price TFP epsilon f1 p1 s;
              ces_demand output output_price TFP epsilon f2 p2 ("1 - " +:+ s)],
          h ++ k).
Proof.
  intros Hf Hp.
  by apply (CES_one_share_string_run h af ap [f1; f2] [p1; p2] output
              output_price TFP s epsilon Hf Hp).
Qed.

Lemma CES_two_factors_one_share_witness :
  ∃ k, CES (VList 0) (VList 1) "Y" "P" "A" (VStr "alpha") "eps"
         [["K"; "L"]; ["r"; "w"]]
       = (Ok ["Y = A * ((alpha) * K ** ((eps - 1) / eps) + (1 - alpha) * L ** ((eps - 1) / eps)) ** (eps / (eps - 1))";
              "K = Y / A * ((alpha) * P * A / r) ** eps";
              "L = Y / A * ((1 - alpha) * P * A / w) ** eps"],
          [["K"; "L"]; ["r"; "w"]] ++ k).
Proof.
  exact (CES_two_factors_one_share [["K"; "L"]; ["r"; "w"]] 0 1 "K" "L" "r" "w"
           "Y" "P" "A" "alpha" "eps" eq_refl eq_refl).
Defined.

(** X8: with the factors and prices given as lists and the share as one
    string, [CES] raises the length error naming [factors] and
    [factor_prices] when the two lists differ in length, and the one naming
    [factors] and [factor_shares] when they agree but the number of factors
    is neither one nor two: a single share string serves one or two factors
    only. *)
Theorem CES_one_share_string_errors (h : store) af ap fs ps
    output output_price TFP s epsilon :
  h !! af = Some fs → h !! ap = Some ps →
  let call := CES (VList af) (VList ap) output output_price TFP (VStr s)
                epsilon in
  (length fs ≠ length ps →
     ∃ h', call h = (Raise (length_mismatch "factors" "factor_prices"), h'))
  ∧ (length fs = length ps → length fs ≠ 1 → length fs ≠ 2 →
     ∃ h', call h = (Raise (length_mismatch "factors" "factor_shares"), h')).
Proof. intros Hf Hp. by apply CES_one_share_string_raise. Qed.

Lemma CES_one_share_string_errors_witness :
  ∃ h', CES (VList 0) (VList 1) "Y" "P" "A" (VStr "alpha") "eps"
          [["K"; "L"; "M"]; ["r"; "w"; "m"]]
        = (Raise (ValueError "Lengths of factors and factor_shares do not match"), h').
Proof.
  refine (proj2 (CES_one_share_string_errors [["K"; "L"; "M"]; ["r"; "w"; "m"]]
            0 1 ["K"; "L"; "M"] ["r"; "w"; "m"] "Y" "P" "A" "alpha" "eps"
            eq_refl eq_refl) eq_refl _ _); simpl; lia.
Defined.

Lemma zip_singleton_r {A B} (x : A) l (y : B) : zip (x :: l) [y] = [(x, y)].
Proof. by destruct l. Qed.

(** X9: [CES] does not take a bare string for one name: it walks the
    characters of [factors] and of [factor_prices] next to the one share, so
    with all three arguments given as bare strings the equations are written
    for the first character of the factor name and the first character of
    the price name. *)
Theorem CES_bare_strings_first_characters (h : store) c f d p
    output output_price TFP s epsilon :
  let factor := String c EmptyString in
  let price := String d EmptyString in
  ∃ k, CES (VStr (String c f)) (VStr (String d p)) output output_price TFP
         (VStr s) epsilon h
       = (Ok [ces_production output TFP epsilon [ces_term epsilon factor s];
              ces_demand output output_price TFP epsilon factor price s],
          h ++ k).
Proof.
  intros factor price.
  destruct (check_lengths_ok (h ++ [[s]]) "factors" "factor_prices"
              "factor_shares" (VStr (String c f)) (VStr (String d p))
              (VList (length h)) [String c f] [String d p] [s]) as [k Hk];
    try done; [apply lookup_fresh|].
  exists ([[s]] ++ k). rewrite app_assoc. unfold CES.
  eapply run_bind; [reflexivity|]. eapply run_bind; [done|].
  assert (((h ++ [[s]]) ++ k) !! length h = Some [s])
    by apply lookup_old, lookup_fresh.
  etrans; [mrun|]. cbn [chars]. rewrite !zip_singleton_r. reflexivity.
Qed.

(** X10: [CES] accepts empty lists of factors, prices and shares: it returns
    the production equation alone, with nothing between the parentheses of
    the sum, and leaves the store as it was. *)
Theorem CES_no_factor (h : store) af ap ash output output_price TFP epsilon :
  h !! af = Some [] → h !! ap = Some [] → h !! ash = Some [] →
  CES (VList af) (VList ap) output output_price TFP (VList ash) epsilon h
  = (Ok [output +:+ " = " +:+ TFP +:+ " * () ** (" +:+ epsilon +:+ " / ("
         +:+ epsilon +:+ " - 1))"], h).
Proof.
  intros Hf Hp Hs. unfold CES.
  eapply run_bind; [by eapply (add_second_alpha_lists h af ash [] [])|].
  eapply run_bind; [by eapply (check_lengths_lists h _ _ _ af ap ash [] [] [])|].
  etrans; [mrun|reflexivity].
Qed.

Lemma CES_no_factor_witness :
  CES (VList 0) (VList 0) "Y" "P" "A" (VList 0) "eps" [[]]
  = (Ok ["Y = A * () ** (eps / (eps - 1))"], [[]]).
Proof. exact (CES_no_factor [[]] 0 0 0 "Y" "P" "A" "eps" eq_refl eq_refl eq_refl). Defined.

(** ** The share list of a [CES] call *)

Lemma CES_one_share_list_run (h : store) af ap a f1 f2 p1 p2 s
    output output_price TFP epsilon :
  h !! af = Some [f1; f2] → h !! ap = Some [p1; p2] → h !! a = Some [s] →
  CES (VList af) (VList ap) output output_price TFP (VList a) epsilon h
  = (Ok [ces_production output TFP epsilon
           [ces_term epsilon f1 s; ces_term epsilon f2 ("1 - " +:+ s)];
         ces_demand output output_price TFP epsilon f1 p1 s;
         ces_demand output output_price TFP epsilon f2 p2 ("1 - " +:+ s)],
     <[a := [s; "1 - " +:+ s]]> h).
Proof.
  intros Hf Hp Ha.
  assert (a ≠ af) as Haf by (intros ->; congruence).
  assert (a ≠ ap) as Hap by (intros ->; congruence).
  set (h' := <[a := [s; "1 - " +:+ s]]> h).
  assert (h' !! af = Some [f1; f2]) as Hf'
    by (unfold h'; by rewrite list_lookup_insert_ne).
  assert (h' !! ap = Some [p1; p2]) as Hp'
    by (unfold h'; by rewrite list_lookup_insert_ne).
  assert (h' !! a = Some [s; "1 - " +:+ s]) as Ha'
    by (unfold h'; apply list_lookup_insert_eq; by eapply lookup_lt_Some).
  unfold CES.
  eapply run_bind.
  { unfold _add_second_alpha; cbn [isinstance_list negb]. mrun. }
  fold h'.
  eapply run_bind; [by eapply check_lengths_lists|].
  etrans; [mrun|reflexivity].
Qed.

Lemma CES_lists_run (h : store) af ap ash (fs ps ss : list string)
    output output_price TFP epsilon :
  h !! af = Some fs → h !! ap = Some ps → h !! ash = Some ss →
  length fs = length ps → length fs = length ss →
  CES (VList af) (VList ap) output output_price TFP (VList ash) epsilon h
  = (Ok (ces_production output TFP epsilon
           ((λ '(f, s), ces_term epsilon f s) <$> zip fs ss)
         :: ((λ '(f, (p, s)), ces_demand output output_price TFP epsilon f p s)
             <$> zip fs (zip ps ss))), h).
Proof.
  intros Hf Hp Hs Hfp Hfs. unfold CES.
  eapply run_bind; [by eapply add_second_alpha_lists|].
  eapply run_bind; [by eapply check_lengths_lists|].
  etrans; [mrun|reflexivity].
Qed.

(** C9: in a [CES] call with exactly two factors and exactly one share
    string [s], given as a bare string or as a one-element list, the share
    list the equations are written with is [[s, "1 - " + s]]: the term and
    the demand of the first factor carry [s], those of the second carry
    [1 - s].  When the number of factors is not two nothing is synthesized:
    the equations are written with the supplied shares, taken as a list.
    Both follow what [_add_second_alpha] returns: the list [[s, "1 - " + s]]
    in the first case, and what [at_least_list] makes of the supplied shares
    in the second. *)
Theorem CES_share_list (h : store) af ap alpha output output_price TFP epsilon :
  (∀ f1 f2 p1 p2 s,
     h !! af = Some [f1; f2] → h !! ap = Some [p1; p2] → one_share h alpha s →
     ∃ h', CES (VList af) (VList ap) output output_price TFP alpha epsilon h
           = (Ok [ces_production output TFP epsilon
                    [ces_term epsilon f1 s;
                     ces_term epsilon f2 ("1 - " +:+ s)];
                  ces_demand output output_price TFP epsilon f1 p1 s;
                  ces_demand output output_price TFP epsilon f2 p2
                    ("1 - " +:+ s)], h'))
  ∧ (∀ fs ps ss,
       h !! af = Some fs → h !! ap = Some ps → as_list h alpha = Some ss →
       length fs ≠ 2 → length fs = length ps → length fs = length ss →
       ∃ h', CES (VList af) (VList ap) output output_price TFP alpha epsilon h
             = (Ok (ces_production output TFP epsilon
                      ((λ '(f, s), ces_term epsilon f s) <$> zip fs ss)
                    :: ((λ '(f, (p, s)),
                          ces_demand output output_price TFP epsilon f p s)
                        <$> zip fs (zip ps ss))), h'))
  ∧ (∀ factors, wf h factors → wf h alpha →
       ∃ v h', _add_second_alpha alpha factors h = (Ok v, h')
         ∧ (two_factors h factors → ∀ s, one_share h alpha s →
              items h' v = Some [s; "1 - " +:+ s])
         ∧ (¬ two_factors h factors →
              at_least_list alpha h = (Ok v, h')
              ∧ items h' v = as_list h alpha)).
Proof.
  split; [|split].
  - intros f1 f2 p1 p2 s Hf Hp [->|(a & -> & Ha)].
    + destruct (CES_one_share_string_run h af ap [f1; f2] [p1; p2] output
                  output_price TFP s epsilon Hf Hp eq_refl eq_refl) as [k Hk].
      by exists (h ++ k).
    + eexists. by apply CES_one_share_list_run.
  - intros fs ps ss Hf Hp Hs Hn Hfp Hfs. destruct alpha as [s|a].
    + injection Hs as <-.
      destruct (CES_one_share_string_run h af ap fs ps output
                  output_price TFP s epsilon Hf Hp Hfp) as [k Hk].
      { by rewrite decide_False. }
      exists (h ++ k). rewrite Hk. by rewrite decide_False.
    + exists h. by apply CES_lists_run.
  - intros factors. apply add_second_alpha_result.
Qed.

Lemma CES_share_list_witness :
  ∃ h', CES (VList 0) (VList 1) "Y" "P" "A" (VList 2) "eps"
          [["K"; "L"]; ["r"; "w"]; ["alpha"]]
        = (Ok ["Y = A * ((alpha) * K ** ((eps - 1) / eps) + (1 - alpha) * L ** ((eps - 1) / eps)) ** (eps / (eps - 1))";
               "K = Y / A * ((alpha) * P * A / r) ** eps";
               "L = Y / A * ((1 - alpha) * P * A / w) ** eps"], h').
Proof.
  refine (proj1 (CES_share_list [["K"; "L"]; ["r"; "w"]; ["alpha"]] 0 1
                   (VList 2) "Y" "P" "A" "eps")
            "K" "L" "r" "w" "alpha" eq_refl eq_refl _).
  right. by exists 2.
Defined.

(** ** [leontief] *)

(** X11: [leontief] on the 1-D path, with the factors, prices and shares
    given as lists of the same length [N] other than one, returns [N + 1]
    equations and leaves the store as it was: the zero-profit equation whose
    right-hand side adds the [N] costs [price * factor] in the order of the
    factors, then for each factor the demand [factor = output * share], in
    which no price occurs. *)
Theorem leontief_1d_equations (h : store) af ap ash (fs ps ss : list string)
    dims output output_price coords backend :
  h !! af = Some fs → h !! ap = Some ps → h !! ash = Some ss →
  length fs = length ps → length fs = length ss → length fs ≠ 1 →
  one_dim h dims →
  let costs := (λ '(f, p), leontief_cost f p) <$> zip fs ps in
  let demands := (λ '(f, s), leontief_demand output f s) <$> zip fs ss in
  leontief (VList af) (VList ap) output output_price (VList ash) dims coords
    backend h
  = (Ok (leontief_zero_profit output output_price costs :: demands), h)
  ∧ length costs = length fs ∧ length demands = length fs.
Proof.
  intros Hf Hp Hs Hfp Hfs Hn Hdim costs demands. split.
  - unfold leontief.
    eapply run_bind; [by eapply check_lengths_lists|].
    eapply run_bind.
    { pose proof (one_dim_run h [] dims Hdim) as Hrun.
      rewrite app_nil_r in Hrun. exact Hrun. }
    eapply run_bind; [by apply len_list_run|]. cbv beta.
    rewrite decide_False by done.
    pose proof (_1d_leontief_run h [] (VList af) (VList ap) (VList ash)
                  output output_price fs ps ss Hf Hp Hs) as Hrun.
    rewrite app_nil_r in Hrun. exact Hrun.
  - unfold costs, demands. rewrite !length_fmap, !length_zip. lia.
Qed.

Lemma leontief_1d_equations_witness :
  leontief (VList 0) (VList 1) "Y" "P_Y" (VList 2) (VStr "i") ∅ "numba"
    [["K"; "L"]; ["r"; "w"]; ["a"; "b"]]
  = (Ok ["P_Y * Y = r * K + w * L"; "K = Y * a"; "L = Y * b"],
     [["K"; "L"]; ["r"; "w"]; ["a"; "b"]]).
Proof.
  refine (proj1 (leontief_1d_equations [["K"; "L"]; ["r"; "w"]; ["a"; "b"]]
            0 1 2 ["K"; "L"] ["r"; "w"] ["a"; "b"] (VStr "i") "Y" "P_Y" ∅
            "numba" eq_refl eq_refl eq_refl eq_refl eq_refl _ I)).
  simpl. lia.
Defined.

(** X12: on the 2-D path with the vectorized backend, [leontief] returns the
    zero-profit equation
    [output_price * output = (factor_prices[:, None] * factors).sum(axis=0).ravel()]
    and the demand [factors = factor_shares * output[None]] without looking
    at [coords] or at what [dims] holds: any [dims] list whose length is not
    one will do, and the dimensions need not be keys of [coords]. *)
Theorem leontief_2d_vectorized (h : store) factors factor_prices factor_shares
    dims output output_price coords f p s :
  single h factors f → len_of h factors = Some 1 →
  single h factor_prices p → single h factor_shares s →
  not_one_dim h dims →
  ∃ k, leontief factors factor_prices output output_price factor_shares dims
         coords "pytensor" h
       = (Ok [output_price +:+ " * " +:+ output +:+ " = (" +:+ p
              +:+ "[:, None] * " +:+ f +:+ ").sum(axis=0).ravel()";
              f +:+ " = " +:+ s +:+ " * " +:+ output +:+ "[None]"], h ++ k).
Proof.
  intros Hf Hlen Hp Hs Hd.
  destruct (leontief_2d_run h factors factor_prices factor_shares dims output
              output_price "pytensor" coords 1) as [k Hk];
    [by eapply singles_lengths_match|done|done|done|].
  exists k. rewrite Hk.
  apply (_2d_vectorized_run (h ++ k) factors factor_prices factor_shares dims
           output output_price coords f p s); by apply single_old.
Qed.

Lemma leontief_2d_vectorized_witness :
  ∃ k, leontief (VStr "X") (VStr "P") "Y" "P_Y" (VStr "phi") (VList 0) ∅
         "pytensor" [["i"; "j"; "k"]]
       = (Ok ["P_Y * Y = (P[:, None] * X).sum(axis=0).ravel()";
              "X = phi * Y[None]"], [["i"; "j"; "k"]] ++ k).
Proof.
  refine (leontief_2d_vectorized [["i"; "j"; "k"]] (VStr "X") (VStr "P")
            (VStr "phi") (VList 0) "Y" "P_Y" ∅ "X" "P" "phi"
            eq_refl eq_refl eq_refl eq_refl _).
  exists 0, ["i"; "j"; "k"]. split; [done|]. split; [done|]. simpl. lia.
Defined.

Lemma _2d_summation_raise (h : store) factors factor_prices factor_shares dims
    output output_price coords f p s ds :
  single h factors f → single h factor_prices p → single h factor_shares s →
  iter_of h dims = Some ds →
  (length ds ≠ 2 →
     ∃ msg, _2d_leontief factors factor_prices output output_price
              factor_shares dims coords "numba" h
            = (Raise (ValueError msg), h))
  ∧ (∀ core_dim batch_dim t, ds = [core_dim; batch_dim] →
       first_free_letter coords t → coords !! batch_dim = None →
       _2d_leontief factors factor_prices output output_price
         factor_shares dims coords "numba" h
       = (Raise (KeyError batch_dim), h)).
Proof.
  intros Hf Hp Hs Hd. split.
  - intros Hlen.
    destruct ds as [|? [|? [|? ?]]]; try done; eexists; unfold _2d_leontief;
      (do 3 (eapply run_bind; [by apply unwrap_single_run|])); cbv beta;
      cbn [String.eqb Ascii.eqb Bool.eqb];
      (eapply run_bind; [by apply iter_of_run|]); reflexivity.
  - intros core_dim batch_dim t -> Ht Hb. unfold _2d_leontief.
    do 3 (eapply run_bind; [by apply unwrap_single_run|]). cbv beta.
    cbn [String.eqb Ascii.eqb Bool.eqb].
    eapply run_bind; [by apply iter_of_run|]. cbv beta iota.
    eapply run_bind; [reflexivity|].
    eapply run_bind; [by apply _T_run|].
    eapply bind_raise. by apply dict_getitem_raise.
Qed.

(** X13: on the 2-D path with the summation backend, [leontief] looks up in
    [coords] the second dimension only: when [batch_dim] is not a key of
    [coords], the call raises [KeyError(batch_dim)], whether or not
    [core_dim] is a key. *)
Theorem leontief_2d_missing_batch_dim (h : store) factors factor_prices
    factor_shares dims output output_price (coords : gmap string (list string))
    f p s core_dim batch_dim t :
  single h factors f → len_of h factors = Some 1 →
  single h factor_prices p → single h factor_shares s →
  two_dims h dims core_dim batch_dim →
  first_free_letter coords t → coords !! batch_dim = None →
  ∃ k, leontief factors factor_prices output output_price factor_shares dims
         coords "numba" h
       = (Raise (KeyError batch_dim), h ++ k).
Proof.
  intros Hf Hlen Hp Hs Hd Ht Hb.
  destruct (leontief_2d_run h factors factor_prices factor_shares dims output
              output_price "numba" coords 1) as [k Hk];
    [by eapply singles_lengths_match|done|by eapply two_dims_not_one|done|].
  exists k. rewrite Hk. destruct Hd as (a & -> & Ha).
  eapply (proj2 (_2d_summation_raise (h ++ k) factors factor_prices
            factor_shares (VList a) output output_price coords f p s
            [core_dim; batch_dim] _ _ _ _)); done.
  Unshelve. all: try by apply single_old. by apply lookup_old.
Qed.

Lemma leontief_2d_missing_batch_dim_witness :
  ∃ k, leontief (VStr "X") (VStr "P") "Y" "P_Y" (VStr "phi") (VList 0)
         {["i" := ["A"; "B"]]} "numba" [["i"; "j"]]
       = (Raise (KeyError "j"), [["i"; "j"]] ++ k).
Proof.
  refine (leontief_2d_missing_batch_dim [["i"; "j"]] (VStr "X") (VStr "P")
            (VStr "phi") (VList 0) "Y" "P_Y" {["i" := ["A"; "B"]]}
            "X" "P" "phi" "i" "j" "a" eq_refl eq_refl eq_refl eq_refl _ _ eq_refl).
  - by exists 0.
  - exists 0. split; [done|]. split; [by refine (bool_decide_unpack _ _)|lia].
Defined.

(** X14: on the 2-D path with the summation backend, [leontief] unpacks
    [dims] into exactly two names: a [dims] list that is empty or has three
    or more entries passes the dispatch but makes the call raise a
    [ValueError]. *)
Theorem leontief_2d_wrong_number_of_dims (h : store) factors factor_prices
    factor_shares output output_price coords f p s a ds :
  single h factors f → len_of h factors = Some 1 →
  single h factor_prices p → single h factor_shares s →
  h !! a = Some ds → length ds ≠ 1 → length ds ≠ 2 →
  ∃ msg k, leontief factors factor_prices output output_price factor_shares
             (VList a) coords "numba" h
           = (Raise (ValueError msg), h ++ k).
Proof.
  intros Hf Hlen Hp Hs Ha H1 H2.
  destruct (leontief_2d_run h factors factor_prices factor_shares (VList a)
              output output_price "numba" coords 1) as [k Hk];
    [by eapply singles_lengths_match|done|by exists a, ds|done|].
  destruct (proj1 (_2d_summation_raise (h ++ k) factors factor_prices
              factor_shares (VList a) output output_price coords f p s ds
              (single_old _ _ _ _ Hf) (single_old _ _ _ _ Hp)
              (single_old _ _ _ _ Hs) (lookup_old _ _ _ _ Ha)) H2) as [msg Hmsg].
  exists msg, k. by rewrite Hk.
Qed.

Lemma leontief_2d_wrong_number_of_dims_witness :
  ∃ msg k, leontief (VStr "X") (VStr "P") "Y" "P_Y" (VStr "phi") (VList 0) ∅
             "numba" [["i"; "j"; "k"]]
           = (Raise (ValueError msg), [["i"; "j"; "k"]] ++ k).
Proof.
  refine (leontief_2d_wrong_number_of_dims [["i"; "j"; "k"]] (VStr "X")
            (VStr "P") (VStr "phi") "Y" "P_Y" ∅ "X" "P" "phi" 0 ["i"; "j"; "k"]
            eq_refl eq_refl eq_refl eq_refl eq_refl _ _); simpl; lia.
Defined.

(** ** [dixit_stiglitz] *)

Lemma for_each_first_raise {A} (pre post : list A) x (body : A → M unit) h e :
  Forall (λ y, body y h = (Ok (), h)) pre → body x h = (Raise e, h) →
  for_each (pre ++ x :: post) body h = (Raise e, h).
Proof.
  intros Hpre Hx. induction Hpre as [|y pre Hy _ IH]; simpl.
  - by eapply bind_raise.
  - by eapply run_bind.
Qed.

(** X15: [dixit_stiglitz] checks [factors], [factor_prices] and
    [factor_shares] in this order and reports the first one that is a list
    whose length is not one, by its name and its length; bare strings and an
    absent [factor_shares] are not checked, and nothing is looked up in
    [coords] before. *)
Theorem dixit_stiglitz_first_bad_length (h : store) factors factor_prices
    factor_shares TFP output output_price epsilon dims coords backend
    pre a name post l :
  zip [Some factors; Some factor_prices; factor_shares]
      ["factors"; "factor_prices"; "factor_shares"]
    = pre ++ (Some (VList a), name) :: post →
  Forall (λ x, passes_validation h x.1) pre →
  h !! a = Some l → length l ≠ 1 →
  dixit_stiglitz factors factor_prices output output_price epsilon dims
    coords backend TFP factor_shares h
  = (Raise (ValueError
       ("Dixit-Stiglitz production function expects only a single factor input, but provided "
        +:+ name +:+ " has length " +:+ str_int (Z.of_nat (length l)))), h).
Proof.
  intros Hzip Hpre Ha Hlen. unfold dixit_stiglitz.
  eapply bind_raise. rewrite Hzip. apply for_each_first_raise.
  - eapply Forall_impl; [exact Hpre|].
    intros [[[s|b]|] nm] Hx; simpl in Hx; [done| |done].
    destruct Hx as (lb & Hb & Hlb). mrun.
  - mrun.
Qed.

Lemma dixit_stiglitz_first_bad_length_witness :
  dixit_stiglitz (VStr "K") (VList 0) "Y" "P_Y" "epsilon" "i" ∅ "numba"
    None None [["r"; "w"]]
  = (Raise (ValueError
       "Dixit-Stiglitz production function expects only a single factor input, but provided factor_prices has length 2"),
     [["r"; "w"]]).
Proof.
  refine (dixit_stiglitz_first_bad_length [["r"; "w"]] (VStr "K") (VList 0)
            None None "Y" "P_Y" "epsilon" "i" ∅ "numba"
            [(Some (VStr "K"), "factors")] 0 "factor_prices"
            [(None, "factor_shares")] ["r"; "w"] eq_refl _ eq_refl _).
  - repeat constructor.
  - simpl. lia.
Defined.

(** X16: once the arguments pass the validation, [dixit_stiglitz] reads
    [coords[dims]] before it tests the backend: when [dims] is not a key of
    [coords] the call raises [KeyError(dims)] for every backend, the
    unsupported ones included. *)
Theorem dixit_stiglitz_missing_dim (h : store) factors factor_prices
    factor_shares TFP output output_price epsilon dims
    (coords : gmap string (list string)) backend f p share :
  single h factors f → single h factor_prices p →
  single_opt h factor_shares share → coords !! dims = None →
  dixit_stiglitz factors factor_prices output output_price epsilon dims
    coords backend TFP factor_shares h
  = (Raise (KeyError dims), h).
Proof.
  intros Hf Hp Hs Hd. unfold dixit_stiglitz.
  eapply run_bind; [by eapply ds_validation_run|].
  eapply run_bind; [by apply unwrap_single_run|].
  eapply run_bind; [by apply unwrap_single_run|].
  eapply run_bind; [by apply unwrap_single_opt_run|].
  cbv beta.
  destruct share as [s|], TFP as [t|];
    cbn [fmap option_fmap option_map str_opt str default];
    do 3 (eapply run_bind; [reflexivity|]);
    eapply bind_raise; by apply dict_getitem_raise.
Qed.

Lemma dixit_stiglitz_missing_dim_witness :
  dixit_stiglitz (VStr "X") (VStr "P") "Y" "P_Y" "epsilon" "i"
    {["j" := ["A"; "B"]]} "jax" None None []
  = (Raise (KeyError "i"), []).
Proof.
  exact (dixit_stiglitz_missing_dim [] (VStr "X") (VStr "P") None None "Y"
           "P_Y" "epsilon" "i" {["j" := ["A"; "B"]]} "jax" "X" "P" None
           eq_refl eq_refl I eq_refl).
Defined.

(** ** [unpack_string_inputs] *)

Lemma unwrapped_run h x :
  wf h x → unwrap_singleton_list x h = (Ok (unwrapped h x), h).
Proof.
  destruct x as [s|a]; [done|]. intros [l Hl]. unfold unwrapped. rewrite Hl.
  unfold unwrap_singleton_list.
  eapply run_bind; [by apply len_list_run|]. cbv beta.
  destruct l as [|s [|s' l]]; [done| |done]. mrun.
Qed.

Lemma mapM_unwrapped_run h inputs :
  Forall (wf h) inputs →
  mapM unwrap_singleton_list inputs h = (Ok (unwrapped h <$> inputs), h).
Proof.
  induction 1 as [|x inputs Hx _ IH]; [done|]. rewrite mapM_cons.
  eapply run_bind; [by apply unwrapped_run|].
  eapply run_bind; [done|]. done.
Qed.

Lemma unwrapped_as_list h x : as_list h (unwrapped h x) = as_list h x.
Proof.
  destruct x as [s|a]; [done|]. simpl.
  by destruct (h !! a) as [[|s [|s' l]]|] eqn:Ha.
Qed.

Lemma unwrapped_wf h x : wf h x → wf h (unwrapped h x).
Proof.
  destruct x as [s|a]; [done|]. simpl.
  by destruct (h !! a) as [[|s [|s' l]]|] eqn:Ha; simpl; rewrite ?Ha.
Qed.

Lemma unwrapped_single h x s : single h x s → unwrapped h x = VStr s.
Proof. destruct x as [s'|a]; simpl; [by intros ->|by intros ->]. Qed.

Lemma mapM_at_least_list_lists h addrs :
  mapM at_least_list (VList <$> addrs) h = (Ok (VList <$> addrs), h).
Proof.
  induction addrs as [|a addrs IH]; [done|]. cbn [fmap list_fmap].
  rewrite mapM_cons. eapply run_bind; [reflexivity|].
  eapply run_bind; [exact IH|]. done.
Qed.

Lemma forallb_isinstance_list_lists addrs :
  forallb isinstance_list (VList <$> addrs) = true.
Proof. by induction addrs. Qed.

(** X17: lists whose length is not one are returned as they are: the result
    of [unpack_string_inputs] holds the very same list objects, no list is
    created or changed, and [dims] and [coords] are not looked at, so that
    no error is raised for dimensions that [coords] lacks. *)
Theorem unpack_string_inputs_lists_unchanged (h : store) addrs dims coords :
  Forall (λ a, ∃ l, h !! a = Some l ∧ length l ≠ 1) addrs →
  unpack_string_inputs (VList <$> addrs) dims coords h
  = (Ok (VList <$> addrs), h).
Proof.
  intros Hl. unfold unpack_string_inputs.
  assert (unwrapped h <$> (VList <$> addrs) = VList <$> addrs) as Hsame.
  { rewrite <- list_fmap_compose.
    apply Forall_fmap_ext_1. eapply Forall_impl; [exact Hl|].
    intros a (l & Ha & Hlen). simpl. rewrite Ha.
    by destruct l as [|s [|s' l]]. }
  eapply run_bind.
  { apply mapM_unwrapped_run.
    apply Forall_fmap. eapply Forall_impl; [exact Hl|].
    intros a (l & Ha & _). by exists l. }
  cbv beta. rewrite Hsame, forallb_isinstance_list_lists.
  apply mapM_at_least_list_lists.
Qed.

Lemma unpack_string_inputs_lists_unchanged_witness :
  unpack_string_inputs [VList 0; VList 1] (Some (VStr "i")) (Some ∅)
    [["K"; "L"]; []]
  = (Ok [VList 0; VList 1], [["K"; "L"]; []]).
Proof.
  refine (unpack_string_inputs_lists_unchanged [["K"; "L"]; []] [0; 1]
            (Some (VStr "i")) (Some ∅) _).
  repeat constructor.
  - exists ["K"; "L"]. split; [done|]. simpl. lia.
  - exists []. split; [done|]. simpl. lia.
Defined.

Lemma wf_old h k x : wf h x → wf (h ++ k) x.
Proof.
  destruct x as [s|a]; [done|]. intros [l Hl]. exists l. by apply lookup_old.
Qed.

Lemma as_list_old h k x : wf h x → as_list (h ++ k) x = as_list h x.
Proof.
  destruct x as [s|a]; [done|]. intros [l Hl]. simpl.
  rewrite Hl. by apply lookup_old.
Qed.

Lemma Forall2_impl_l {A B} (P : A → Prop) (R R' : A → B → Prop) l k :
  Forall P l → Forall2 R l k → (∀ x y, P x → R x y → R' x y) →
  Forall2 R' l k.
Proof.
  intros HP HR Himpl.
  induction HR; inversion_clear HP; constructor; auto.
Qed.

Lemma mapM_at_least_list_run h l :
  Forall (wf h) l →
  ∃ out k, mapM at_least_list l h = (Ok out, h ++ k)
           ∧ Forall2 (λ x o, items (h ++ k) o = as_list h x) l out.
Proof.
  revert h. induction l as [|x l IH]; intros h Hwf.
  { exists [], []. by rewrite app_nil_r. }
  apply Forall_cons in Hwf as [Hx Hl]. destruct x as [s|a].
  - destruct (IH (h ++ [[s]])) as (out & k & Hrun & Hout).
    { eapply Forall_impl; [exact Hl|]. intros y. apply wf_old. }
    exists (VList (length h) :: out), ([[s]] ++ k). rewrite app_assoc. split.
    + rewrite mapM_cons. eapply run_bind; [reflexivity|].
      eapply run_bind; [exact Hrun|]. done.
    + constructor.
      * simpl. apply lookup_old, lookup_fresh.
      * eapply Forall2_impl_l; [exact Hl|exact Hout|].
        intros y o Hy Ho. simpl in Ho. rewrite Ho. by apply as_list_old.
  - destruct (IH h Hl) as (out & k & Hrun & Hout).
    exists (VList a :: out), k. split.
    + rewrite mapM_cons. eapply run_bind; [reflexivity|].
      eapply run_bind; [exact Hrun|]. done.
    + constructor; [|done]. by apply (as_list_old h k (VList a)).
Qed.

(** X18: without [dims] or without [coords], [unpack_string_inputs] expands
    nothing and accepts any mix of strings and lists: it returns for every
    input a list of the input's own items, a bare string counting as one
    item, and the lists of the store before the call are left as they
    were. *)
Theorem unpack_string_inputs_without_coords (h : store) inputs dims coords :
  dims = None ∨ coords = None → Forall (wf h) inputs →
  ∃ out k, unpack_string_inputs inputs dims coords h = (Ok out, h ++ k)
           ∧ Forall2 (λ x o, items (h ++ k) o = as_list h x) inputs out.
Proof.
  intros Hnone Hwf.
  destruct (mapM_at_least_list_run h (unwrapped h <$> inputs))
    as (out & k & Hrun & Hout).
  { apply Forall_fmap. eapply Forall_impl; [exact Hwf|].
    intros x. apply unwrapped_wf. }
  exists out, k. split.
  - unfold unpack_string_inputs.
    eapply run_bind; [by apply mapM_unwrapped_run|]. cbv beta.
    destruct (forallb isinstance_list (unwrapped h <$> inputs)); [done|].
    by destruct Hnone as [-> | ->]; [destruct coords|].
  - apply Forall2_fmap_l in Hout. eapply Forall2_impl; [exact Hout|].
    intros x o Ho. simpl in Ho. by rewrite Ho, unwrapped_as_list.
Qed.

Lemma unpack_string_inputs_without_coords_witness :
  ∃ out k, unpack_string_inputs [VStr "K"; VList 0; VList 1] None None
             [["L"]; ["a"; "b"]]
           = (Ok out, [["L"]; ["a"; "b"]] ++ k)
           ∧ Forall2 (λ x o, items ([["L"]; ["a"; "b"]] ++ k) o
                              = as_list [["L"]; ["a"; "b"]] x)
               [VStr "K"; VList 0; VList 1] out.
Proof.
  refine (unpack_string_inputs_without_coords [["L"]; ["a"; "b"]]
            [VStr "K"; VList 0; VList 1] None None (or_introl eq_refl) _).
  repeat constructor; simpl; by eexists.
Defined.

Lemma forallb_isinstance_list_single h inputs :
  Exists (λ x, ∃ s, single h x s) inputs →
  forallb isinstance_list (unwrapped h <$> inputs) = false.
Proof.
  induction 1 as [x inputs [s Hx]|x inputs _ IH]; cbn [fmap list_fmap forallb].
  - by rewrite (unwrapped_single _ _ _ Hx).
  - fold (fmap (M:=list) (unwrapped h) inputs). rewrite IH. apply andb_false_r.
Qed.

Lemma forallb_keys_missing (coords : gmap string (list string)) keys :
  Exists (λ key, coords !! key = None) keys →
  forallb (λ key, bool_decide (key ∈ dom coords)) keys = false.
Proof.
  induction 1 as [key keys Hkey|key keys _ IH]; cbn [forallb].
  - rewrite bool_decide_eq_false_2; [done|]. by apply not_elem_of_dom.
  - rewrite IH. apply andb_false_r.
Qed.

(** X19: with [dims] and [coords] given and an input that is a bare string or
    a one-item list, [unpack_string_inputs] raises the [KeyError]
    ["Dimensions <dims> not found in coords"] as soon as one entry of [dims]
    is not a key of [coords], before any list is created; [<dims>] is the
    whole of [dims] as [str] prints it, not the missing entry, and a [dims]
    given as a bare string is checked character by character. *)
Theorem unpack_string_inputs_missing_dim (h : store) inputs dims
    (coords : gmap string (list string)) keys :
  Forall (wf h) inputs → Exists (λ x, ∃ s, single h x s) inputs →
  iter_of h dims = Some keys → Exists (λ key, coords !! key = None) keys →
  unpack_string_inputs inputs (Some dims) (Some coords) h
  = (Raise (KeyError ("Dimensions "
                      +:+ match dims with
                          | VStr s => s
                          | VList _ => repr_list keys
                          end
                      +:+ " not found in coords")), h).
Proof.
  intros Hwf Hstr Hdims Hkeys. unfold unpack_string_inputs.
  eapply run_bind; [by apply mapM_unwrapped_run|]. cbv beta.
  rewrite (forallb_isinstance_list_single _ _ Hstr).
  eapply run_bind; [by apply iter_of_run|]. cbv beta.
  rewrite (forallb_keys_missing _ _ Hkeys). cbn [negb].
  destruct dims as [s|a]; [done|].
  eapply run_bind; [|reflexivity]. unfold str.
  eapply run_bind; [by apply deref_run|]. done.
Qed.

Lemma unpack_string_inputs_missing_dim_witness :
  unpack_string_inputs [VStr "K"] (Some (VList 0))
    (Some {["i" := ["A"; "B"]]}) [["i"; "j"]]
  = (Raise (KeyError "Dimensions ['i', 'j'] not found in coords"),
     [["i"; "j"]]).
Proof.
  refine (unpack_string_inputs_missing_dim [["i"; "j"]] [VStr "K"] (VList 0)
            {["i" := ["A"; "B"]]} ["i"; "j"] _ _ eq_refl _).
  - by repeat constructor.
  - constructor. by exists "K".
  - apply Exists_cons_tl. by constructor.
Defined.

Lemma length_cartesian {A} (pools : list (list A)) :
  length (cartesian pools) = foldr (λ pool n, length pool * n) 1 pools.
Proof.
  induction pools as [|pool pools IH]; [done|]. cbn [cartesian foldr].
  rewrite <- IH. clear IH. induction pool as [|x pool IH]; [done|].
  cbn [mbind list_bind length]. rewrite length_app, length_fmap.
  cbn [mbind] in IH. rewrite IH. lia.
Qed.

Lemma unpack_strings_run (h : store) inputs names dims keys
    (coords : gmap string (list string)) labels :
  Forall2 (single h) inputs names →
  iter_of h dims = Some keys →
  Forall2 (λ key l, coords !! key = Some l) keys labels →
  unpack_string_inputs inputs (Some dims) (Some coords) h
  = (Ok (VList <$> seq (length h) (length names)),
     h ++ ((λ name, generated_name name <$> cartesian labels) <$> names)).
Proof.
  intros Hin Hdims Hkeys. unfold unpack_string_inputs.
  eapply run_bind; [by apply mapM_unwrap_run|]. cbv beta.
  destruct (decide (names = [])) as [->|Hne].
  { simpl. by rewrite app_nil_r. }
  rewrite forallb_isinstance_list_str by done.
  eapply run_bind; [by apply iter_of_run|]. cbv beta.
  rewrite (forallb_keys _ _ _ Hkeys). cbn [negb].
  eapply run_bind; [by apply iter_of_run|].
  eapply run_bind; [by apply mapM_dict_getitem_run|].
  eapply run_bind; [apply mapM_alloc_run|]. cbv beta.
  rewrite length_fmap, product_cartesian.
  eapply run_bind; [apply unpack_outer_run; by rewrite length_replicate|].
  cbv beta. rewrite zip_with_replicate_r_eq by done. done.
Qed.

(** X20: when every input is a bare string or a one-item list and every
    entry of [dims] is a key of [coords], [unpack_string_inputs] returns as
    many lists as there are inputs, and each of them holds as many names as
    the product of the numbers of labels of the dimensions: one name when
    [dims] is empty, none when a dimension has no label. *)
Theorem unpack_string_inputs_count (h : store) inputs names dims keys
    (coords : gmap string (list string)) labels :
  Forall2 (single h) inputs names →
  iter_of h dims = Some keys →
  Forall2 (λ key l, coords !! key = Some l) keys labels →
  ∃ out h', unpack_string_inputs inputs (Some dims) (Some coords) h
            = (Ok out, h')
    ∧ length out = length inputs
    ∧ Forall (λ o, ∃ l, items h' o = Some l
                        ∧ length l = foldr (λ pool n, length pool * n) 1 labels)
        out.
Proof.
  intros Hin Hdims Hkeys. eexists _, _. split; [by eapply unpack_strings_run|].
  split.
  - rewrite length_fmap, length_seq. symmetry. by eapply Forall2_length.
  - apply Forall_fmap, Forall_forall. intros a Ha.
    apply elem_of_seq in Ha as [Hlo Hhi].
    destruct (lookup_lt_is_Some_2 names (a - length h)) as [name Hname]; [lia|].
    exists (generated_name name <$> cartesian labels). split.
    + simpl. rewrite lookup_app_r by lia. by rewrite list_lookup_fmap, Hname.
    + by rewrite length_fmap, length_cartesian.
Qed.

Lemma unpack_string_inputs_count_witness :
  ∃ out h', unpack_string_inputs [VStr "K"; VStr "L"] (Some (VList 0))
              (Some {["i" := ["A"; "B"; "C"]; "j" := ["X"; "Y"]]})
              [["i"; "j"]]
            = (Ok out, h')
    ∧ length out = 2
    ∧ Forall (λ o, ∃ l, items h' o = Some l ∧ length l = 6) out.
Proof.
  refine (unpack_string_inputs_count [["i"; "j"]] [VStr "K"; VStr "L"]
            ["K"; "L"] (VList 0) ["i"; "j"]
            {["i" := ["A"; "B"; "C"]; "j" := ["X"; "Y"]]}
            [["A"; "B"; "C"]; ["X"; "Y"]] _ eq_refl _);
    by repeat constructor.
Defined.
